(** * gost proxy chain (chain.go): a shallow embedding and its properties

    The Go file builds an outbound connection through an ordered list of
    proxy nodes, with an optional HTTP/2 shortcut.  Configuration methods
    ([AddProxyNode], [TryEnableHttp2], ...) are state transformers on the
    [ProxyChain] record.  Connection-building methods ([Dial], [GetConn],
    [travelNodes], ...) only read the chain; they run in a small monad [M]
    that threads the chronological trace of network operations and can
    end in a Go runtime panic.  The outcome of every network operation is
    chosen by a [World], which may look at the whole trace so far. *)

From stdpp Require Import base decidable option list strings gmap.
From Stdlib Require Import ZArith Lia.

Local Open Scope string_scope.
Local Open Scope list_scope.

(* ===================================================================== *)
(** ** Data model *)
(* ===================================================================== *)

(** Modelled from the spec: the ProxyNode descriptor, declared outside
    chain.go.  Only what chain.go reads is kept: the address, the
    transport kind, the expected server name, and the result of the
    [insecureSkipVerify()] method (a function of the node alone). *)
Record ProxyNode : Type := {
  Addr : string;
  Transport : string;
  serverName : string;
  insecureSkipVerify : bool
}.

(** The two fields of [tls.Config] that chain.go fills in. *)
Record tls_Config : Type := {
  InsecureSkipVerify : bool;
  ServerName : string
}.

(** Go [error] values.  [ErrEmptyChain] is the package-level sentinel
    (declared outside chain.go); [errors_New] is [errors.New]; errors
    raised by the collaborators are [ExternalError]. *)
Inductive error : Type :=
| ErrEmptyChain
| errors_New (text : string)
| ExternalError (text : string).

(** Connections.  [TCPConn] is what [net.DialTimeout] returns, [ProxyConn]
    what [NewProxyConn(conn, node)] returns, [http2Conn] is the struct
    literal [&http2Conn{r: resp.Body, w: pw}], [tlsConn] is [tls.Client].
    [nil_ProxyConn] is the [net.Conn] interface value that holds a nil
    [*ProxyConn]: it is not the nil interface, and it is what Go makes of
    a nil [*ProxyConn] returned where a [net.Conn] is declared. *)
Inductive Conn : Type :=
| TCPConn (id : nat) (addr : string)
| ProxyConn (conn : Conn) (node : ProxyNode)
| http2Conn (r : nat) (w : nat)
| tlsConn (conn : Conn) (cfg : tls_Config)
| nil_ProxyConn.

Module url.
Record URL : Type := { Scheme : string; Host : string }.
End url.

Module Request.
(** The fields of [http.Request] set by [getHttp2Conn].  [Body] is the
    read end of the pipe, named by the pipe's identity. *)
Record t : Type := {
  Method : string;
  URL : url.URL;
  Header : gmap string (list string);
  Proto : string;
  ProtoMajor : Z;
  ProtoMinor : Z;
  Body : nat;
  Host : string;
  ContentLength : Z
}.
End Request.

Module Response.
Record t : Type := {
  Status : string;
  StatusCode : Z;
  Body : nat
}.
End Response.

(** The HTTP/2 client built by [initHttp2Client].  Its [DialTLS] closure
    captures the variadic [nodes] argument; the closure is stored by the
    data it captures and is run by [DialTLS] below. *)
Record Http2Client : Type := {
  TLSClientConfig : tls_Config;
  DialTLS_nodes : list ProxyNode
}.

(** [lastNode] points at an element of [nodes]; elements are never
    written after they are stored, so the pointee is kept by value. *)
Record ProxyChain : Type := {
  nodes : list ProxyNode;
  lastNode : option ProxyNode;
  http2NodeIndex : Z;
  http2Enabled : bool;
  http2Client : option Http2Client
}.

#[global] Instance ProxyNode_eq_dec : EqDecision ProxyNode.
Proof. solve_decision. Defined.
#[global] Instance tls_Config_eq_dec : EqDecision tls_Config.
Proof. solve_decision. Defined.
#[global] Instance error_eq_dec : EqDecision error.
Proof. solve_decision. Defined.
#[global] Instance Conn_eq_dec : EqDecision Conn.
Proof. solve_decision. Defined.

(* ===================================================================== *)
(** ** Go primitives: machine integers, slices, strings *)
(* ===================================================================== *)

(** Go's [int] on a 64-bit platform: two's complement wrap-around. *)
Definition int_wrap (z : Z) : Z := ((z + 2 ^ 63) mod 2 ^ 64 - 2 ^ 63)%Z.
Definition int_add (a b : Z) : Z := int_wrap (a + b).
Definition MaxInt : Z := (2 ^ 63 - 1)%Z.

Definition len {A} (s : list A) : Z := Z.of_nat (length s).

(** [strings.Contains]. *)
Definition strings_Contains (s substr : string) : bool :=
  match String.index 0 substr s with Some _ => true | None => false end.

(** Header.Set: the key used by chain.go is already in canonical form. *)
Definition Header_Set (key value : string) (h : gmap string (list string))
  : gmap string (list string) := <[key := [value]]> h.

(* ===================================================================== *)
(** ** The world and the trace *)
(* ===================================================================== *)

Inductive event : Type :=
| EvDial (addr : string) (res : Conn + error)         (* net.DialTimeout("tcp", addr, DialTimeout) *)
| EvKeepAlive (cc : Conn)                             (* setKeepAlive(cc, KeepAliveTime) *)
| EvHandshake (pc : Conn) (res : option error)        (* pc.Handshake() *)
| EvConnect (pc : Conn) (addr : string) (res : option error)  (* pc.Connect(addr) *)
| EvClose (c : Conn)                                  (* c.Close() *)
| EvPipe (id : nat)                                   (* io.Pipe() *)
| EvRoundTrip (req : Request.t) (res : Response.t + error) (* the client's request/response exchange *)
| EvBodyClose (body : nat).                           (* resp.Body.Close() *)

Definition trace := list event.

(** What the collaborators answer; [None] in an [option error] is Go's
    [nil] error.  [transport_dial] says whether the HTTP/2 transport has
    to open a connection of its own for a request, and to which address. *)
Record World : Type := {
  dial_result : trace -> string -> option error;
  handshake_result : trace -> Conn -> option error;
  connect_result : trace -> Conn -> string -> option error;
  transport_dial : trace -> Request.t -> option string;
  roundtrip_result : trace -> Request.t -> Response.t + error
}.

(** How a call ends: it returns, the Go runtime panics, or the bound on
    nested re-entries of the client's dial hook is used up. *)
Inductive outcome (A : Type) : Type :=
| Done (a : A)
| Panic (msg : string)
| OutOfFuel.
Arguments Done {A} a.
Arguments Panic {A} msg.
Arguments OutOfFuel {A}.

Definition M (A : Type) : Type := trace -> outcome A * trace.

Definition ret {A} (a : A) : M A := fun t => (Done a, t).

Definition bind {A B} (m : M A) (k : A -> M B) : M B :=
  fun t =>
    match m t with
    | (Done a, t') => k a t'
    | (Panic msg, t') => (Panic msg, t')
    | (OutOfFuel, t') => (OutOfFuel, t')
    end.

Definition panic {A} (msg : string) : M A := fun t => (Panic msg, t).
Definition out_of_fuel {A} : M A := fun t => (OutOfFuel, t).
Definition emit (e : event) : M unit := fun t => (Done tt, t ++ [e]).

Declare Scope go_scope.
Delimit Scope go_scope with go.
Notation "x <- m ;; k" := (bind m (fun x => k))
  (at level 100, m at next level, right associativity) : go_scope.
Notation "m ;; k" := (bind m (fun _ => k))
  (at level 100, right associativity) : go_scope.
Local Open Scope go_scope.

(** A Go [(net.Conn, error)] result pair; [None] is [nil]. *)
Definition ConnErr : Type := option Conn * option error.

(** [s[low:]]: the runtime panics unless [0 <= low <= len(s)]. *)
Definition slice_from {A} (s : list A) (low : Z) : M (list A) :=
  if ((0 <=? low) && (low <=? len s))%Z then ret (drop (Z.to_nat low) s)
  else panic "slice bounds out of range".

(** [s[i]]: the runtime panics unless [0 <= i < len(s)]. *)
Definition index {A} (s : list A) (i : Z) : M A :=
  if (0 <=? i)%Z then
    match s !! Z.to_nat i with
    | Some x => ret x
    | None => panic "index out of range"
    end
  else panic "index out of range".

(* ===================================================================== *)
(** ** Node registry and activation (state transformers on the chain) *)
(* ===================================================================== *)

Definition NewProxyChain (nodes : list ProxyNode) : ProxyChain :=
  {| nodes := nodes; lastNode := None; http2NodeIndex := (-1)%Z;
     http2Enabled := false; http2Client := None |}.

Definition AddProxyNode (c : ProxyChain) (node : list ProxyNode) : ProxyChain :=
  {| nodes := nodes c ++ node; lastNode := lastNode c;
     http2NodeIndex := http2NodeIndex c; http2Enabled := http2Enabled c;
     http2Client := http2Client c |}.

Section Registry.

(** The node parser lives outside chain.go: Go's [(node, err)] result. *)
Variable ParseProxyNode : string -> ProxyNode + error.

Fixpoint AddProxyNodeString (c : ProxyChain) (snode : list string)
  : option error * ProxyChain :=
  match snode with
  | [] => (None, c)
  | sn :: rest =>
      match ParseProxyNode sn with
      | inr err => (Some err, c)
      | inl node => AddProxyNodeString (AddProxyNode c [node]) rest
      end
  end.

End Registry.

Definition Nodes (c : ProxyChain) : list ProxyNode := nodes c.

Definition Http2Enabled (c : ProxyChain) : bool := http2Enabled c.

(** [addr] is shadowed by the closure's own parameter and is not used. *)
Definition initHttp2Client (c : ProxyChain) (addr : string) (config : tls_Config)
    (nodes' : list ProxyNode) : ProxyChain :=
  {| nodes := nodes c; lastNode := lastNode c;
     http2NodeIndex := http2NodeIndex c;
     http2Enabled := true;
     http2Client := Some {| TLSClientConfig := config; DialTLS_nodes := nodes' |} |}.

(** The [for i, node := range c.nodes] loop of [TryEnableHttp2], entered
    at index [i] with [rest] still to visit.  [c.nodes[:i]] is in range
    for every index the loop produces. *)
Fixpoint TryEnableHttp2_range (c : ProxyChain) (i : nat) (rest : list ProxyNode)
  : ProxyChain :=
  match rest with
  | [] => c
  | node :: rest' =>
      if String.eqb (Transport node) "http2" then
        let cfg := {| InsecureSkipVerify := insecureSkipVerify node;
                      ServerName := serverName node |} in
        let c1 := initHttp2Client c (Addr node) cfg (take i (nodes c)) in
        {| nodes := nodes c1; lastNode := lastNode c1;
           http2NodeIndex := Z.of_nat i;
           http2Enabled := http2Enabled c1; http2Client := http2Client c1 |}
      else TryEnableHttp2_range c (S i) rest'
  end.

Definition TryEnableHttp2 (c : ProxyChain) : ProxyChain :=
  let length := len (nodes c) in
  if (length =? 0)%Z then c
  else
    let c1 := {| nodes := nodes c;
                 lastNode := nodes c !! Z.to_nat (length - 1);
                 http2NodeIndex := http2NodeIndex c;
                 http2Enabled := http2Enabled c; http2Client := http2Client c |} in
    TryEnableHttp2_range c1 0 (nodes c1).

(* ===================================================================== *)
(** ** Connection building *)
(* ===================================================================== *)

Section Engine.

Variable w : World.

(** The [DialTLS] hook the HTTP/2 transport calls back when it needs a
    connection of its own; its first argument is the calling client.
    The hook installed by [initHttp2Client] is [DialTLS], defined after
    the section because it calls back into [dialWithNodes]. *)
Variable DialTLS_hook : Http2Client -> string -> string -> tls_Config -> M ConnErr.

Definition net_DialTimeout (addr : string) : M ConnErr :=
  fun t =>
    match dial_result w t addr with
    | None =>
        let cc := TCPConn (length t) addr in
        (Done (Some cc, None), t ++ [EvDial addr (inl cc)])
    | Some err => (Done (None, Some err), t ++ [EvDial addr (inr err)])
    end.

Definition setKeepAlive (cc : Conn) : M unit := emit (EvKeepAlive cc).

Definition NewProxyConn (conn : Conn) (node : ProxyNode) : Conn :=
  ProxyConn conn node.

Definition Handshake (pc : Conn) : M (option error) :=
  fun t =>
    let r := handshake_result w t pc in (Done r, t ++ [EvHandshake pc r]).

Definition Connect (pc : Conn) (addr : string) : M (option error) :=
  fun t =>
    let r := connect_result w t pc addr in (Done r, t ++ [EvConnect pc addr r]).

Definition Close (conn : Conn) : M unit := emit (EvClose conn).

Definition io_Pipe : M nat :=
  fun t => (Done (length t), t ++ [EvPipe (length t)]).

Definition Body_Close (resp : Response.t) : M unit :=
  emit (EvBodyClose (Response.Body resp)).

Definition RoundTrip (req : Request.t) : M (option Response.t * option error) :=
  fun t =>
    let r := roundtrip_result w t req in
    (Done (match r with
           | inl resp => (Some resp, None)
           | inr err => (None, Some err)
           end), t ++ [EvRoundTrip req r]).

(** [http2Client.Do(&req)]: the transport first dials through its
    [DialTLS] hook when it has no connection for the request, then
    exchanges the request for a response.  A failed dial fails the call. *)
Definition Do (client : option Http2Client) (req : Request.t)
  : M (option Response.t * option error) :=
  match client with
  | None => panic "invalid memory address or nil pointer dereference"
  | Some cl =>
      fun t =>
        match transport_dial w t req with
        | None => RoundTrip req t
        | Some addr =>
            (r <- DialTLS_hook cl "tcp" addr (TLSClientConfig cl) ;;
             match r with
             | (_, Some err) => ret (None, Some err)
             | (_, None) => RoundTrip req
             end) t
        end
  end.

(** The request literal of [getHttp2Conn], after [req.Header.Set]. *)
Definition switch_request (http2Node : ProxyNode) (pr : nat) : Request.t :=
  let req :=
    {| Request.Method := "CONNECT";
       Request.URL := {| url.Scheme := "https"; url.Host := Addr http2Node |};
       Request.Header := ∅;
       Request.Proto := "HTTP/2.0";
       Request.ProtoMajor := 2;
       Request.ProtoMinor := 0;
       Request.Body := pr;
       Request.Host := Addr http2Node;
       Request.ContentLength := (-1) |} in
  {| Request.Method := Request.Method req;
     Request.URL := Request.URL req;
     Request.Header := Header_Set "Proxy-Switch" "gost" (Request.Header req);
     Request.Proto := Request.Proto req;
     Request.ProtoMajor := Request.ProtoMajor req;
     Request.ProtoMinor := Request.ProtoMinor req;
     Request.Body := Request.Body req;
     Request.Host := Request.Host req;
     Request.ContentLength := Request.ContentLength req |}.

Definition StatusOK : Z := 200.

Definition getHttp2Conn (c : ProxyChain) : M ConnErr :=
  if negb (Http2Enabled c) then ret (None, Some (errors_New "HTTP2 not enabled"))
  else
    http2Node <- index (nodes c) (http2NodeIndex c) ;;
    p <- io_Pipe ;;
    let req := switch_request http2Node p in
    r <- Do (http2Client c) req ;;
    match r with
    | (_, Some err) => ret (None, Some err)
    | (None, None) => panic "invalid memory address or nil pointer dereference"
    | (Some resp, None) =>
        if negb (Response.StatusCode resp =? StatusOK)%Z then
          Body_Close resp ;;
          ret (None, Some (errors_New (Response.Status resp)))
        else ret (Some (http2Conn (Response.Body resp) p), None)
    end.

Definition http2Connect (c : ProxyChain) (addr : string) : M ConnErr :=
  r <- getHttp2Conn c ;;
  match r with
  | (_, Some err) => ret (None, Some err)
  | (None, None) => panic "invalid memory address or nil pointer dereference"
  | (Some conn, None) =>
      node <- index (nodes c) (http2NodeIndex c) ;;
      let pc := NewProxyConn conn node in
      err <- Connect pc addr ;;
      match err with
      | Some e => Close pc ;; ret (None, Some e)
      | None => ret (Some conn, None)
      end
  end.

(** The deferred function of [travelNodes], run at every [return] on the
    current values of the named results [conn] and [err].  (A panic can
    only arise before [conn] is first assigned, where the deferred
    function does nothing, so panics pass through [bind] unchanged.) *)
Definition travelNodes_deferred (conn : option Conn) (err : option error)
  : M ConnErr :=
  match err, conn with
  | Some e, Some pc => Close pc ;; ret (None, Some e)
  | _, _ => ret (conn, err)
  end.

(** The [for _, node := range nodes[1:]] loop, with [conn] the layer
    built so far. *)
Fixpoint travelNodes_range (conn : Conn) (rest : list ProxyNode) : M ConnErr :=
  match rest with
  | [] => travelNodes_deferred (Some conn) None
  | node :: rest' =>
      err <- Connect conn (Addr node) ;;
      match err with
      | Some e => travelNodes_deferred (Some conn) (Some e)
      | None =>
          let pc := NewProxyConn conn node in
          err <- Handshake pc ;;
          match err with
          | Some e => travelNodes_deferred (Some conn) (Some e)
          | None => travelNodes_range pc rest'
          end
      end
  end.

Definition travelNodes (c : ProxyChain) (nodes : list ProxyNode) : M ConnErr :=
  node <- index nodes 0 ;;
  r <- (if Http2Enabled c then http2Connect c (Addr node)
        else net_DialTimeout (Addr node)) ;;
  match r with
  | (_, Some e) => travelNodes_deferred None (Some e)
  | (None, None) => panic "invalid memory address or nil pointer dereference"
  | (Some cc, None) =>
      setKeepAlive cc ;;
      let pc := NewProxyConn cc node in
      err <- Handshake pc ;;
      match err with
      | Some e => travelNodes_deferred None (Some e)
      | None => travelNodes_range pc (drop 1 nodes)
      end
  end.

Definition dialWithNodes (c : ProxyChain) (addr : string) (nodes : list ProxyNode)
  : M ConnErr :=
  if (len nodes =? 0)%Z then net_DialTimeout addr
  else
    let through (nodes : list ProxyNode) : M ConnErr :=
      r <- travelNodes c nodes ;;
      match r with
      | (_, Some e) => ret (None, Some e)
      | (None, None) => panic "invalid memory address or nil pointer dereference"
      | (Some pc, None) =>
          err <- Connect pc addr ;;
          match err with
          | Some e => Close pc ;; ret (None, Some e)
          | None => ret (Some pc, None)
          end
      end in
    if Http2Enabled c then
      nodes' <- slice_from nodes (int_add (http2NodeIndex c) 1) ;;
      if (len nodes' =? 0)%Z then http2Connect c addr
      else through nodes'
    else through nodes.

(** A [*ProxyConn] returned as a [net.Conn]: the interface value wraps
    the pointer, also when the pointer is nil. *)
Definition net_Conn_of_ProxyConn (pc : option Conn) : option Conn :=
  match pc with
  | Some conn => Some conn
  | None => Some nil_ProxyConn
  end.

(** [GetConn] is declared to return a [net.Conn] and an [error]; its
    last statement returns the results of [travelNodes], a [*ProxyConn]
    and an [error], and Go converts the pointer on the way out. *)
Definition GetConn (c : ProxyChain) : M ConnErr :=
  let nodes := nodes c in
  if (len nodes =? 0)%Z then ret (None, Some ErrEmptyChain)
  else
    let return_travelNodes (nodes : list ProxyNode) : M ConnErr :=
      r <- travelNodes c nodes ;;
      ret (net_Conn_of_ProxyConn (fst r), snd r) in
    if Http2Enabled c then
      nodes' <- slice_from nodes (int_add (http2NodeIndex c) 1) ;;
      if (len nodes' =? 0)%Z then getHttp2Conn c
      else return_travelNodes nodes'
    else return_travelNodes nodes.

Definition Dial (c : ProxyChain) (addr : string) : M ConnErr :=
  let addr := if negb (strings_Contains addr ":") then addr +:+ ":80" else addr in
  dialWithNodes c addr (nodes c).

End Engine.

(** The closure [initHttp2Client] installs as the transport's [DialTLS].
    It reads the chain when it is called, so it sees [http2Enabled] and
    [http2NodeIndex] as activation left them.  [fuel] bounds how deeply
    the hook may be re-entered through a tunnel request of its own. *)
Fixpoint DialTLS (w : World) (fuel : nat) (c : ProxyChain) (client : Http2Client)
    (network addr : string) (cfg : tls_Config) : M ConnErr :=
  match fuel with
  | O => out_of_fuel
  | S fuel' =>
      r <- dialWithNodes w (DialTLS w fuel' c) c addr (DialTLS_nodes client) ;;
      match r with
      | (conn, Some err) => ret (conn, Some err)
      | (None, None) => panic "invalid memory address or nil pointer dereference"
      | (Some conn, None) => ret (Some (tlsConn conn cfg), None)
      end
  end.

(* ===================================================================== *)
(** ** Vocabulary of the properties *)
(* ===================================================================== *)

(** Modelled from the spec: [Close] of a layered connection "must close
    every layer it was built from, transitively" (the per-hop connection
    type is declared outside chain.go).  [layers c] lists [c] and every
    connection beneath it. *)
Fixpoint layers (c : Conn) : list Conn :=
  match c with
  | TCPConn _ _ | http2Conn _ _ | nil_ProxyConn => [c]
  | ProxyConn inner _ | tlsConn inner _ => c :: layers inner
  end.

(** [closed_in evs c]: some [Close] recorded in [evs] reaches [c]. *)
Definition closed_in (evs : trace) (c : Conn) : bool :=
  existsb (fun ev => match ev with
                     | EvClose c' => bool_decide (c ∈ layers c')
                     | _ => false
                     end) evs.

(** The nodes whose handshake layers a connection carries, innermost
    first, and the stream at the bottom. *)
Fixpoint hops (c : Conn) : list ProxyNode :=
  match c with
  | ProxyConn inner node => hops inner ++ [node]
  | tlsConn inner _ => hops inner
  | _ => []
  end.

Fixpoint base (c : Conn) : Conn :=
  match c with
  | ProxyConn inner _ | tlsConn inner _ => base inner
  | _ => c
  end.

(** A node requests the shortcut when its transport kind is ["http2"]. *)
Definition requests_shortcut (node : ProxyNode) : Prop := Transport node = "http2".

(** Chains configured without an effective activation: built by the
    registry operations, with [TryEnableHttp2] called, if at all, only
    while the registry was empty. *)
Inductive unactivated (ParseProxyNode : string -> ProxyNode + error)
  : ProxyChain -> Prop :=
| unactivated_new (ns : list ProxyNode) :
    unactivated ParseProxyNode (NewProxyChain ns)
| unactivated_add (c : ProxyChain) (ns : list ProxyNode) :
    unactivated ParseProxyNode c ->
    unactivated ParseProxyNode (AddProxyNode c ns)
| unactivated_add_string (c : ProxyChain) (snode : list string) :
    unactivated ParseProxyNode c ->
    unactivated ParseProxyNode (snd (AddProxyNodeString ParseProxyNode c snode))
| unactivated_try_empty (c : ProxyChain) :
    unactivated ParseProxyNode c -> nodes c = [] ->
    unactivated ParseProxyNode (TryEnableHttp2 c).

(** Operations on a stream that is already open: keep-alive, the hop
    operations Handshake and Connect, and Close. *)
Definition layer_event (ev : event) : bool :=
  match ev with
  | EvKeepAlive _ | EvHandshake _ _ | EvConnect _ _ _ | EvClose _ => true
  | _ => false
  end.

(** Events of the raw path: TCP dials and operations on open streams.
    The tunnel adapter's events (pipe, request exchange, body close) are
    excluded. *)
Definition raw_event (ev : event) : bool :=
  match ev with
  | EvDial _ _ => true
  | _ => layer_event ev
  end.

Definition is_TCPConn (c : Conn) : bool :=
  match c with TCPConn _ _ => true | _ => false end.

Definition is_http2Conn (c : Conn) : bool :=
  match c with http2Conn _ _ => true | _ => false end.

(** A [travelNodes] run as [GetConn] returns it. *)
Definition returned_as_net_Conn (run : outcome ConnErr * trace)
  : outcome ConnErr * trace :=
  match run with
  | (Done r, t) => (Done (net_Conn_of_ProxyConn (fst r), snd r), t)
  | other => other
  end.

(** The hop loop as the design describes it: for each remaining node, in
    order, Connect to its address on the layer built so far, then its
    Handshake on the new layer; the first step the world fails stops the
    loop, the layer built so far is closed, and the step's error is
    returned with no connection.  [hop_layering w conn rest t r t']:
    started on [conn] with trace [t], the loop over [rest] ends with
    result [r] and trace [t']. *)
Inductive hop_layering (w : World)
  : Conn -> list ProxyNode -> trace -> ConnErr -> trace -> Prop :=
| hop_layering_done (conn : Conn) (t : trace) :
    hop_layering w conn [] t (Some conn, None) t
| hop_layering_connect_fails (conn : Conn) (node : ProxyNode)
    (rest : list ProxyNode) (t : trace) (e : error) :
    connect_result w t conn (Addr node) = Some e ->
    hop_layering w conn (node :: rest) t (None, Some e)
      (t ++ [EvConnect conn (Addr node) (Some e); EvClose conn])
| hop_layering_handshake_fails (conn : Conn) (node : ProxyNode)
    (rest : list ProxyNode) (t : trace) (e : error) :
    connect_result w t conn (Addr node) = None ->
    handshake_result w (t ++ [EvConnect conn (Addr node) None])
      (ProxyConn conn node) = Some e ->
    hop_layering w conn (node :: rest) t (None, Some e)
      (t ++ [EvConnect conn (Addr node) None;
             EvHandshake (ProxyConn conn node) (Some e); EvClose conn])
| hop_layering_step (conn : Conn) (node : ProxyNode) (rest : list ProxyNode)
    (t t' : trace) (r : ConnErr) :
    connect_result w t conn (Addr node) = None ->
    handshake_result w (t ++ [EvConnect conn (Addr node) None])
      (ProxyConn conn node) = None ->
    hop_layering w (ProxyConn conn node) rest
      (t ++ [EvConnect conn (Addr node) None;
             EvHandshake (ProxyConn conn node) None]) r t' ->
    hop_layering w conn (node :: rest) t r t'.

(** The result pairs [GetConn] can return: a connection with a nil
    error; a nil connection with an error; or, when the error is the one
    [travelNodes] returned, the non-nil interface holding a nil
    [*ProxyConn] together with that error. *)
Definition GetConn_result (r : ConnErr) : Prop :=
  (exists conn, r = (Some conn, None) /\ conn <> nil_ProxyConn) \/
  (exists e, r = (None, Some e)) \/
  (exists e, r = (Some nil_ProxyConn, Some e)).

(** A Go result pair is well formed when exactly one of its components
    is nil. *)
Definition exclusive (r : ConnErr) : Prop :=
  (exists conn, r = (Some conn, None)) \/ (exists e, r = (None, Some e)).

(** The error an operation recorded in the trace ended with, if any. *)
Definition event_error (ev : event) : option error :=
  match ev with
  | EvDial _ (inr e) | EvHandshake _ (Some e) | EvConnect _ _ (Some e)
  | EvRoundTrip _ (inr e) => Some e
  | _ => None
  end.

(** The successful hop operations that layer [rest] on [conn], in order:
    for each node, Connect to its address on the layer so far, then its
    Handshake on the new layer. *)
Fixpoint layered_steps (conn : Conn) (rest : list ProxyNode) : trace :=
  match rest with
  | [] => []
  | node :: rest' =>
      EvConnect conn (Addr node) None
      :: EvHandshake (ProxyConn conn node) None
      :: layered_steps (ProxyConn conn node) rest'
  end.

(** How [dialWithNodes] finishes a [travelNodes] run: an error is passed
    on; on a built chain [pc] it issues one Connect to the target and, if
    that fails, closes [pc] and returns the error. *)
Definition connect_target (w : World) (addr : string)
    (run : outcome ConnErr * trace) : outcome ConnErr * trace :=
  match run with
  | (Done (_, Some e), t1) => (Done (None, Some e), t1)
  | (Done (None, None), t1) =>
      (Panic "invalid memory address or nil pointer dereference", t1)
  | (Done (Some pc, None), t1) =>
      match connect_result w t1 pc addr with
      | None => (Done (Some pc, None), t1 ++ [EvConnect pc addr None])
      | Some e =>
          (Done (None, Some e), t1 ++ [EvConnect pc addr (Some e); EvClose pc])
      end
  | (Panic msg, t1) => (Panic msg, t1)
  | (OutOfFuel, t1) => (OutOfFuel, t1)
  end.

(** The address [Dial] works with: [addr], with ":80" appended when it
    has no colon. *)
Definition target_addr (addr : string) : string :=
  if strings_Contains addr ":" then addr else addr +:+ ":80".

(* ===================================================================== *)
(** ** Sample nodes and worlds *)
(* ===================================================================== *)

Definition raw_node (addr : string) : ProxyNode :=
  {| Addr := addr; Transport := "tcp"; serverName := ""; insecureSkipVerify := false |}.

Definition shortcut_node (addr : string) : ProxyNode :=
  {| Addr := addr; Transport := "http2"; serverName := addr; insecureSkipVerify := true |}.

Definition nodeA : ProxyNode := raw_node "a:1080".
Definition nodeB : ProxyNode := raw_node "b:1080".
Definition nodeC : ProxyNode := raw_node "c:1080".
Definition nodeH : ProxyNode := shortcut_node "h:443".

(** A world in which every operation succeeds; the transport dials for
    its first request only and every response is [status]. *)
Definition world_status (code : Z) (status : string) : World :=
  {| dial_result := fun _ _ => None;
     handshake_result := fun _ _ => None;
     connect_result := fun _ _ _ => None;
     transport_dial := fun t req =>
       if existsb (fun ev => match ev with EvRoundTrip _ _ => true | _ => false end) t
       then None else Some (url.Host (Request.URL req));
     roundtrip_result := fun t _ =>
       inl {| Response.Status := status; Response.StatusCode := code;
              Response.Body := length t |} |}.

Definition world_ok : World := world_status 200 "200 OK".

(** As [world_ok], but the handshake of [node] fails. *)
Definition world_handshake_fails (node : ProxyNode) : World :=
  {| dial_result := dial_result world_ok;
     handshake_result := fun _ pc =>
       match pc with
       | ProxyConn _ n => if bool_decide (n = node) then Some (ExternalError "handshake") else None
       | _ => None
       end;
     connect_result := connect_result world_ok;
     transport_dial := transport_dial world_ok;
     roundtrip_result := roundtrip_result world_ok |}.

(** As [world_ok], but every Connect to [addr] fails. *)
Definition world_connect_fails (addr : string) : World :=
  {| dial_result := dial_result world_ok;
     handshake_result := handshake_result world_ok;
     connect_result := fun _ _ a =>
       if String.eqb a addr then Some (ExternalError "connect") else None;
     transport_dial := transport_dial world_ok;
     roundtrip_result := roundtrip_result world_ok |}.

(** A node parser for examples: the empty text is rejected, any other
    text is taken as the address of a raw node. *)
Definition sample_parser (s : string) : ProxyNode + error :=
  if String.eqb s "" then inr (ExternalError "invalid node") else inl (raw_node s).

(** A chain whose first node requests the shortcut, activated. *)
Definition chainHC : ProxyChain := TryEnableHttp2 (NewProxyChain [nodeH; nodeC]).

(** A chain whose only node requests the shortcut, activated. *)
Definition chainH : ProxyChain := TryEnableHttp2 (NewProxyChain [nodeH]).

(** A chain with one raw node before the shortcut node, activated. *)
Definition chainAHC : ProxyChain :=
  TryEnableHttp2 (NewProxyChain [nodeA; nodeH; nodeC]).

(* ===================================================================== *)
(** ** Proof tactics *)
(* ===================================================================== *)

(** Traces are kept as [t ++ [e1; ...; en]]. *)
Ltac norm_trace := repeat rewrite <- app_assoc; cbn [app].
Ltac norm_trace_in H := repeat rewrite <- app_assoc in H; cbn [app] in H.

Ltac run_go :=
  cbv beta delta [bind ret panic emit setKeepAlive Close Handshake Connect
                  NewProxyConn travelNodes_deferred Body_Close io_Pipe] iota zeta.

(* ===================================================================== *)
(** ** The node registry *)
(* ===================================================================== *)

Section RegistryFacts.

Variable ParseProxyNode : string -> ProxyNode + error.

(** A batch whose entries all parse is appended in order. *)
Lemma AddProxyNodeString_all_parsed (snode : list string) :
  forall (c : ProxyChain) (parsed : list ProxyNode),
    Forall2 (fun sn node => ParseProxyNode sn = inl node) snode parsed ->
    AddProxyNodeString ParseProxyNode c snode = (None, AddProxyNode c parsed).
Proof.
  induction snode as [|sn rest IH]; intros c parsed Hall.
  - inversion Hall; subst. simpl. unfold AddProxyNode.
    rewrite app_nil_r. by destruct c.
  - inversion Hall as [|? node ? parsed' Hsn Hrest]; subst. simpl.
    rewrite Hsn, (IH _ parsed' Hrest). unfold AddProxyNode; simpl.
    by rewrite <- app_assoc.
Qed.

(** The shortcut fields are not touched by the registry operations. *)
Lemma AddProxyNodeString_shortcut_fields (snode : list string) :
  forall c : ProxyChain,
    let c' := snd (AddProxyNodeString ParseProxyNode c snode) in
    http2Enabled c' = http2Enabled c /\
    http2NodeIndex c' = http2NodeIndex c /\
    http2Client c' = http2Client c.
Proof.
  induction snode as [|sn rest IH]; intros c; simpl; [done|].
  destruct (ParseProxyNode sn) as [node|err]; simpl; [|done].
  apply (IH (AddProxyNode c [node])).
Qed.

End RegistryFacts.

(** C3, as amended. When a batch passed to [AddProxyNodeString] has an
    unparsable entry, the call stops at the first such entry and returns
    the parser's error unchanged; the entries before it have been
    appended to the registry, in order, and no entry at or after it is
    appended. *)
Theorem AddProxyNodeString_stops_at_first_unparsable :
  forall (ParseProxyNode : string -> ProxyNode + error) (c : ProxyChain)
         (before : list string) (parsed : list ProxyNode)
         (bad : string) (after : list string) (err : error),
    Forall2 (fun sn node => ParseProxyNode sn = inl node) before parsed ->
    ParseProxyNode bad = inr err ->
    AddProxyNodeString ParseProxyNode c (before ++ bad :: after)
    = (Some err, AddProxyNode c parsed).
Proof.
  intros parse c before. revert c.
  induction before as [|sn rest IH]; intros c parsed bad after err Hall Hbad.
  - inversion Hall; subst. simpl. rewrite Hbad. unfold AddProxyNode.
    rewrite app_nil_r. by destruct c.
  - inversion Hall as [|? node ? parsed' Hsn Hrest]; subst. simpl.
    rewrite Hsn, (IH _ parsed' bad after err Hrest Hbad).
    unfold AddProxyNode; simpl. by rewrite <- app_assoc.
Qed.

Lemma AddProxyNodeString_stops_at_first_unparsable_witness :
  AddProxyNodeString sample_parser (NewProxyChain [nodeA]) ["b:1080"; ""; "c:1080"]
  = (Some (ExternalError "invalid node"),
     AddProxyNode (NewProxyChain [nodeA]) [raw_node "b:1080"]).
Proof.
  apply (AddProxyNodeString_stops_at_first_unparsable
           sample_parser (NewProxyChain [nodeA]) ["b:1080"] [raw_node "b:1080"]
           "" ["c:1080"] (ExternalError "invalid node")).
  - repeat constructor.
  - reflexivity.
Defined.

(** C3, as stated, fails: a batch with an unparsable entry does not
    always leave the node list as it was.  With ["b:1080"; ""] the first
    entry is appended before the second is rejected. *)
Lemma AddProxyNodeString_keeps_parsed_prefix :
  ~ (forall (ParseProxyNode : string -> ProxyNode + error) (c : ProxyChain)
            (snode : list string),
        (exists sn err, In sn snode /\ ParseProxyNode sn = inr err) ->
        nodes (snd (AddProxyNodeString ParseProxyNode c snode)) = nodes c).
Proof.
  intros Hclaim.
  specialize (Hclaim sample_parser (NewProxyChain []) ["b:1080"; ""]).
  assert (Hbad : exists sn err, In sn ["b:1080"; ""] /\ sample_parser sn = inr err).
  { exists "", (ExternalError "invalid node"). split; [right; left|]; reflexivity. }
  specialize (Hclaim Hbad). vm_compute in Hclaim. discriminate Hclaim.
Qed.

(* ===================================================================== *)
(** ** Activation *)
(* ===================================================================== *)

Lemma TryEnableHttp2_range_miss (c : ProxyChain) (rest : list ProxyNode) :
  forall i : nat,
    Forall (fun n => ~ requests_shortcut n) rest ->
    TryEnableHttp2_range c i rest = c.
Proof.
  induction rest as [|n rest IH]; intros i Hall; simpl; [done|].
  inversion Hall as [|? ? Hn Hrest]; subst.
  apply String.eqb_neq in Hn. rewrite Hn. by apply IH.
Qed.

Lemma TryEnableHttp2_range_hit (c : ProxyChain) (pre : list ProxyNode) :
  forall (i : nat) (node : ProxyNode) (post : list ProxyNode),
    Forall (fun n => ~ requests_shortcut n) pre ->
    requests_shortcut node ->
    TryEnableHttp2_range c i (pre ++ node :: post)
    = {| nodes := nodes c; lastNode := lastNode c;
         http2NodeIndex := Z.of_nat (i + length pre);
         http2Enabled := true;
         http2Client :=
           Some {| TLSClientConfig :=
                     {| InsecureSkipVerify := insecureSkipVerify node;
                        ServerName := serverName node |};
                   DialTLS_nodes := take (i + length pre) (nodes c) |} |}.
Proof.
  induction pre as [|n pre IH]; intros i node post Hall Hnode; simpl.
  - apply String.eqb_eq in Hnode. rewrite Hnode. simpl.
    by rewrite Nat.add_0_r.
  - inversion Hall as [|? ? Hn Hpre]; subst.
    apply String.eqb_neq in Hn. rewrite Hn.
    rewrite (IH (S i) node post Hpre Hnode).
    by replace (S i + length pre) with (i + S (length pre)) by lia.
Qed.

(** What activation leaves behind when the first node requesting the
    shortcut is [node], after the prefix [pre]. *)
Lemma TryEnableHttp2_activated (c : ProxyChain) (pre : list ProxyNode)
    (node : ProxyNode) (post : list ProxyNode) :
  nodes c = pre ++ node :: post ->
  Forall (fun n => ~ requests_shortcut n) pre ->
  requests_shortcut node ->
  TryEnableHttp2 c
  = {| nodes := nodes c;
       lastNode := nodes c !! Z.to_nat (len (nodes c) - 1);
       http2NodeIndex := len pre;
       http2Enabled := true;
       http2Client :=
         Some {| TLSClientConfig :=
                   {| InsecureSkipVerify := insecureSkipVerify node;
                      ServerName := serverName node |};
                 DialTLS_nodes := pre |} |}.
Proof.
  intros Hnodes Hpre Hnode. unfold TryEnableHttp2.
  destruct (len (nodes c) =? 0)%Z eqn:Hlen.
  - apply Z.eqb_eq in Hlen. unfold len in Hlen. rewrite Hnodes in Hlen.
    rewrite length_app in Hlen. simpl in Hlen. lia.
  - cbv zeta. cbn [nodes].
    set (c1 := Build_ProxyChain _ _ _ _ _).
    rewrite Hnodes at 1.
    rewrite (TryEnableHttp2_range_hit c1 pre 0 node post Hpre Hnode).
    subst c1. cbn [nodes lastNode]. rewrite Nat.add_0_l.
    replace (take (length pre) (nodes c)) with pre; [done|].
    by rewrite Hnodes, take_app_length.
Qed.

Lemma TryEnableHttp2_range_nodes (rest : list ProxyNode) :
  forall (c : ProxyChain) (i : nat), nodes (TryEnableHttp2_range c i rest) = nodes c.
Proof.
  induction rest as [|n rest IH]; intros c i; simpl; [done|].
  destruct (String.eqb (Transport n) "http2"); [done|apply IH].
Qed.

(** C5. On a non-empty node list [TryEnableHttp2] records the position of
    the first node whose transport is ["http2"] as the shortcut index and
    enables the shortcut, whatever follows that node; the node list is
    unchanged; when no node requests the shortcut (in particular when
    the registry is empty) the shortcut fields stay as they were, so a
    disabled shortcut stays disabled. *)
Theorem TryEnableHttp2_first_match :
  forall c : ProxyChain,
    nodes (TryEnableHttp2 c) = nodes c /\
    (forall pre node post,
        nodes c = pre ++ node :: post ->
        Forall (fun n => ~ requests_shortcut n) pre ->
        requests_shortcut node ->
        http2NodeIndex (TryEnableHttp2 c) = len pre /\
        http2Enabled (TryEnableHttp2 c) = true /\
        nodes c !! Z.to_nat (http2NodeIndex (TryEnableHttp2 c)) = Some node) /\
    (Forall (fun n => ~ requests_shortcut n) (nodes c) ->
        http2Enabled (TryEnableHttp2 c) = http2Enabled c /\
        http2NodeIndex (TryEnableHttp2 c) = http2NodeIndex c /\
        http2Client (TryEnableHttp2 c) = http2Client c).
Proof.
  intros c. split; [|split].
  - unfold TryEnableHttp2. destruct (len (nodes c) =? 0)%Z; [done|].
    cbv zeta. by rewrite TryEnableHttp2_range_nodes.
  - intros pre node post Hnodes Hpre Hnode.
    rewrite (TryEnableHttp2_activated c pre node post Hnodes Hpre Hnode).
    cbn [http2NodeIndex http2Enabled]. repeat split.
    unfold len. rewrite Nat2Z.id, Hnodes.
    by rewrite list_lookup_middle.
  - intros Hall. unfold TryEnableHttp2.
    destruct (len (nodes c) =? 0)%Z; [done|].
    cbv zeta. cbn [nodes]. by rewrite TryEnableHttp2_range_miss.
Qed.

Lemma TryEnableHttp2_first_match_witness :
  let c := NewProxyChain [nodeA; nodeH; nodeC; shortcut_node "d:443"] in
  http2NodeIndex (TryEnableHttp2 c) = 1%Z /\
  http2Enabled (TryEnableHttp2 c) = true /\
  nodes c !! Z.to_nat (http2NodeIndex (TryEnableHttp2 c)) = Some nodeH.
Proof.
  intros c.
  apply (proj1 (proj2 (TryEnableHttp2_first_match c))
           [nodeA] nodeH [nodeC; shortcut_node "d:443"]).
  - reflexivity.
  - repeat constructor. discriminate.
  - reflexivity.
Defined.

(* ===================================================================== *)
(** ** Running the connection builders *)
(* ===================================================================== *)

Lemma layers_self (c : Conn) : c ∈ layers c.
Proof. destruct c; simpl; apply list_elem_of_here. Qed.

Lemma closed_in_intro (evs : trace) (c c' : Conn) :
  In (EvClose c') evs -> c ∈ layers c' -> closed_in evs c = true.
Proof.
  intros Hin Hlayer. unfold closed_in. apply existsb_exists.
  exists (EvClose c'). split; [done|]. by apply bool_decide_eq_true.
Qed.

Lemma closed_in_no_close (evs : trace) (c : Conn) :
  (forall c', ~ In (EvClose c') evs) -> closed_in evs c = false.
Proof.
  intros Hno. unfold closed_in. apply not_true_is_false. intros Hex.
  apply existsb_exists in Hex as (ev & Hin & Hev).
  destruct ev; try discriminate. by apply (Hno c0).
Qed.

Section EngineFacts.

Variable w : World.
Variable hook : Http2Client -> string -> string -> tls_Config -> M ConnErr.

Lemma travelNodes_raw_first_hop (c : ProxyChain) (node : ProxyNode)
    (rest : list ProxyNode) (t : trace) :
  Http2Enabled c = false ->
  dial_result w t (Addr node) = None ->
  let cc := TCPConn (length t) (Addr node) in
  let pc := ProxyConn cc node in
  let t1 := t ++ [EvDial (Addr node) (inl cc); EvKeepAlive cc] in
  travelNodes w hook c (node :: rest) t
  = match handshake_result w t1 pc with
    | Some e => (Done (None, Some e), t1 ++ [EvHandshake pc (Some e)])
    | None => travelNodes_range w pc rest (t1 ++ [EvHandshake pc None])
    end.
Proof.
  intros Hoff Hdial. unfold travelNodes, index, net_DialTimeout. rewrite Hoff.
  run_go. simpl. rewrite Hdial. norm_trace.
  destruct (handshake_result w _ _); norm_trace; reflexivity.

Qed.

Lemma travelNodes_range_step (conn : Conn) (node : ProxyNode)
    (rest : list ProxyNode) (t : trace) :
  let pc := ProxyConn conn node in
  travelNodes_range w conn (node :: rest) t
  = match connect_result w t conn (Addr node) with
    | Some e =>
        (Done (None, Some e), t ++ [EvConnect conn (Addr node) (Some e); EvClose conn])
    | None =>
        let t1 := t ++ [EvConnect conn (Addr node) None] in
        match handshake_result w t1 pc with
        | Some e =>
            (Done (None, Some e), t1 ++ [EvHandshake pc (Some e); EvClose conn])
        | None => travelNodes_range w pc rest (t1 ++ [EvHandshake pc None])
        end
    end.
Proof.
  cbn [travelNodes_range]. run_go.
  destruct (connect_result w t conn (Addr node)); norm_trace; [done|].
  destruct (handshake_result w _ _); norm_trace; done.
Qed.

End EngineFacts.

(** C4. With the shortcut disabled, [travelNodes] on [[A; B; C]] dials
    A's address (and sets keep-alive on the socket), handshakes A, issues
    Connect(B.Addr) on the A-layer, handshakes B on top, issues
    Connect(C.Addr) on the B-layer, handshakes C on top and returns the
    C-layer, in this order and with nothing in between.  If B's Connect
    or B's handshake fails, the A-layer (and with it the socket beneath)
    is closed before the error is returned, no connection is returned,
    and the trace ends there: no step for C is started. *)
Theorem travelNodes_three_nodes :
  forall (w : World) hook (c : ProxyChain) (A B C : ProxyNode) (t : trace),
    Http2Enabled c = false ->
    let cA := TCPConn (length t) (Addr A) in
    let lA := ProxyConn cA A in
    let lB := ProxyConn lA B in
    let lC := ProxyConn lB C in
    let dialA := [EvDial (Addr A) (inl cA); EvKeepAlive cA] in
    let hopA := dialA ++ [EvHandshake lA None] in
    dial_result w t (Addr A) = None ->
    handshake_result w (t ++ dialA) lA = None ->
    (connect_result w (t ++ hopA) lA (Addr B) = None ->
     handshake_result w (t ++ hopA ++ [EvConnect lA (Addr B) None]) lB = None ->
     connect_result w
       (t ++ hopA ++ [EvConnect lA (Addr B) None; EvHandshake lB None])
       lB (Addr C) = None ->
     handshake_result w
       (t ++ hopA ++ [EvConnect lA (Addr B) None; EvHandshake lB None;
                      EvConnect lB (Addr C) None])
       lC = None ->
     travelNodes w hook c [A; B; C] t
     = (Done (Some lC, None),
        t ++ [EvDial (Addr A) (inl cA); EvKeepAlive cA; EvHandshake lA None;
              EvConnect lA (Addr B) None; EvHandshake lB None;
              EvConnect lB (Addr C) None; EvHandshake lC None]))
    /\
    (forall e,
        connect_result w (t ++ hopA) lA (Addr B) = Some e ->
        let evs := hopA ++ [EvConnect lA (Addr B) (Some e); EvClose lA] in
        travelNodes w hook c [A; B; C] t = (Done (None, Some e), t ++ evs) /\
        closed_in evs lA = true /\ closed_in evs cA = true)
    /\
    (forall e,
        connect_result w (t ++ hopA) lA (Addr B) = None ->
        handshake_result w (t ++ hopA ++ [EvConnect lA (Addr B) None]) lB = Some e ->
        let evs := hopA ++ [EvConnect lA (Addr B) None; EvHandshake lB (Some e);
                            EvClose lA] in
        travelNodes w hook c [A; B; C] t = (Done (None, Some e), t ++ evs) /\
        closed_in evs lA = true /\ closed_in evs cA = true).
Proof.
  intros w hook c A B C t Hoff cA lA lB lC dialA hopA HdialA HhsA.
  pose proof (travelNodes_raw_first_hop w hook c A [B; C] t Hoff HdialA) as Hfirst.
  cbv zeta in Hfirst. fold cA lA in Hfirst.
  change (t ++ [EvDial (Addr A) (inl cA); EvKeepAlive cA]) with (t ++ dialA) in Hfirst.
  rewrite HhsA in Hfirst. rewrite Hfirst. clear Hfirst.
  rewrite travelNodes_range_step. cbv zeta. fold lB.
  subst hopA dialA. norm_trace.
  split; [|split].
  - intros HcB HhsB HcC HhsC. norm_trace. norm_trace_in HhsB.
    rewrite HcB. norm_trace. rewrite HhsB. norm_trace.
    rewrite travelNodes_range_step. cbv zeta. fold lC.
    rewrite HcC. norm_trace. rewrite HhsC. norm_trace.
    reflexivity.
  - intros e HcB. rewrite HcB. norm_trace. split; [done|].
    split; apply (closed_in_intro _ _ lA); simpl; auto 10; subst lA; simpl;
      set_solver.
  - intros e HcB HhsB. norm_trace_in HhsB. rewrite HcB. norm_trace.
    rewrite HhsB. norm_trace. split; [done|].
    split; apply (closed_in_intro _ _ lA); simpl; auto 10; subst lA; simpl;
      set_solver.
Qed.

Lemma travelNodes_three_nodes_witness :
  let c := NewProxyChain [nodeA; nodeB; nodeC] in
  let cA := TCPConn 0 "a:1080" in
  let lA := ProxyConn cA nodeA in
  let lB := ProxyConn lA nodeB in
  let lC := ProxyConn lB nodeC in
  travelNodes world_ok (DialTLS world_ok 1 c) c [nodeA; nodeB; nodeC] []
  = (Done (Some lC, None),
     [EvDial "a:1080" (inl cA); EvKeepAlive cA; EvHandshake lA None;
      EvConnect lA "b:1080" None; EvHandshake lB None;
      EvConnect lB "c:1080" None; EvHandshake lC None])
  /\
  travelNodes (world_handshake_fails nodeB) (DialTLS world_ok 1 c) c
    [nodeA; nodeB; nodeC] []
  = (Done (None, Some (ExternalError "handshake")),
     [EvDial "a:1080" (inl cA); EvKeepAlive cA; EvHandshake lA None;
      EvConnect lA "b:1080" None;
      EvHandshake lB (Some (ExternalError "handshake")); EvClose lA])
  /\
  travelNodes (world_connect_fails "b:1080") (DialTLS world_ok 1 c) c
    [nodeA; nodeB; nodeC] []
  = (Done (None, Some (ExternalError "connect")),
     [EvDial "a:1080" (inl cA); EvKeepAlive cA; EvHandshake lA None;
      EvConnect lA "b:1080" (Some (ExternalError "connect")); EvClose lA]).
Proof.
  intros c cA lA lB lC. split; [|split].
  - apply (proj1 (travelNodes_three_nodes world_ok (DialTLS world_ok 1 c) c
                    nodeA nodeB nodeC [] eq_refl eq_refl eq_refl));
      reflexivity.
  - apply (proj2 (proj2 (travelNodes_three_nodes (world_handshake_fails nodeB)
                           (DialTLS world_ok 1 c) c
                           nodeA nodeB nodeC [] eq_refl eq_refl eq_refl))
             (ExternalError "handshake")); reflexivity.
  - apply (proj1 (proj2 (travelNodes_three_nodes (world_connect_fails "b:1080")
                           (DialTLS world_ok 1 c) c
                           nodeA nodeB nodeC [] eq_refl eq_refl eq_refl))
             (ExternalError "connect")); reflexivity.
Defined.

(** C9. On a chain with no nodes [GetConn] returns [ErrEmptyChain] and a
    nil connection, and the trace is left as it was: no network
    operation is performed. *)
Theorem GetConn_empty_chain :
  forall (w : World) hook (c : ProxyChain) (t : trace),
    nodes c = [] ->
    GetConn w hook c t = (Done (None, Some ErrEmptyChain), t).
Proof.
  intros w hook c t Hnil. unfold GetConn. by rewrite Hnil.
Qed.

Lemma GetConn_empty_chain_witness :
  GetConn world_ok (DialTLS world_ok 1 (NewProxyChain [])) (NewProxyChain []) []
  = (Done (None, Some ErrEmptyChain), []).
Proof.
  apply (GetConn_empty_chain world_ok _ (NewProxyChain []) [] eq_refl).
Defined.

(* ===================================================================== *)
(** ** The raw path *)
(* ===================================================================== *)

Lemma layer_event_raw (evs : trace) :
  forallb layer_event evs = true -> forallb raw_event evs = true.
Proof.
  intros H. apply forallb_forall. intros ev Hin.
  pose proof (proj1 (forallb_forall _ _) H ev Hin) as Hev.
  by destruct ev.
Qed.

Section RawPath.

Variable w : World.
Variable hook : Http2Client -> string -> string -> tls_Config -> M ConnErr.

(** The loop of [travelNodes] only layers hop operations on [conn]: it
    returns, either the connection carrying every remaining node on top
    of [conn], or an error and no connection. *)
Lemma travelNodes_range_layers (rest : list ProxyNode) :
  forall (conn : Conn) (t : trace),
  exists evs r,
    travelNodes_range w conn rest t = (Done r, t ++ evs) /\
    forallb layer_event evs = true /\
    ((exists pc, r = (Some pc, None) /\
                 hops pc = hops conn ++ rest /\ base pc = base conn) \/
     (exists e, r = (None, Some e))).
Proof.
  induction rest as [|node rest IH]; intros conn t.
  - exists [], (Some conn, None). simpl. unfold ret.
    rewrite !app_nil_r. eauto 10.
  - rewrite travelNodes_range_step. cbv zeta.
    destruct (connect_result w t conn (Addr node)) as [e|] eqn:Hc.
    { eexists _, _. split; [reflexivity|]. split; [reflexivity|]. eauto. }
    destruct (handshake_result w _ _) as [e|] eqn:Hh; norm_trace.
    { eexists _, _. split; [reflexivity|]. split; [reflexivity|]. eauto. }
    destruct (IH (ProxyConn conn node)
                 (t ++ [EvConnect conn (Addr node) None;
                        EvHandshake (ProxyConn conn node) None]))
      as (evs & r & Hrun & Hevs & Hres).
    rewrite Hrun. norm_trace.
    eexists _, _. split; [reflexivity|]. split; [simpl; exact Hevs|].
    destruct Hres as [(pc & -> & Hhops & Hbase)|(e & ->)]; [left|right; eauto].
    exists pc. split; [done|]. simpl in Hhops, Hbase.
    rewrite Hhops, <- app_assoc. done.
Qed.

(** With the shortcut disabled, [travelNodes] on a non-empty list dials
    the first node's address and layers every node of the list on that
    socket. *)
Lemma travelNodes_raw (c : ProxyChain) (node : ProxyNode) (rest : list ProxyNode)
    (t : trace) :
  Http2Enabled c = false ->
  exists evs r,
    travelNodes w hook c (node :: rest) t = (Done r, t ++ evs) /\
    forallb raw_event evs = true /\
    ((exists pc, r = (Some pc, None) /\ hops pc = node :: rest /\
                 base pc = TCPConn (length t) (Addr node)) \/
     (exists e, r = (None, Some e))).
Proof.
  intros Hoff.
  destruct (dial_result w t (Addr node)) as [e|] eqn:Hdial.
  - unfold travelNodes, index, net_DialTimeout. rewrite Hoff. run_go. simpl.
    rewrite Hdial. eexists _, _. split; [reflexivity|]. eauto.
  - rewrite (travelNodes_raw_first_hop w hook c node rest t Hoff Hdial).
    cbv zeta. destruct (handshake_result w _ _) as [e|]; norm_trace.
    { eexists _, _. split; [reflexivity|]. eauto. }
    match goal with
    | |- context [travelNodes_range w ?pc rest ?t1] =>
        destruct (travelNodes_range_layers rest pc t1)
          as (evs & r & Hrun & Hevs & Hres)
    end.
    rewrite Hrun. norm_trace.
    eexists _, _. split; [reflexivity|].
    split; [simpl; by apply layer_event_raw|].
    destruct Hres as [(pc & -> & Hhops & Hbase)|(e & ->)]; [left|right; eauto].
    exists pc. done.
Qed.

(** The loop of [travelNodes] against its description [hop_layering]. *)
Lemma travelNodes_range_layering (rest : list ProxyNode) :
  forall (conn : Conn) (t : trace),
  exists r t',
    travelNodes_range w conn rest t = (Done r, t') /\
    hop_layering w conn rest t r t'.
Proof.
  induction rest as [|node rest IH]; intros conn t.
  - exists (Some conn, None), t. split; [reflexivity|constructor].
  - rewrite travelNodes_range_step. cbv zeta.
    destruct (connect_result w t conn (Addr node)) as [e|] eqn:Hc.
    { eexists _, _. split; [reflexivity|]. by constructor. }
    destruct (handshake_result w _ _) as [e|] eqn:Hh; norm_trace.
    { eexists _, _. split; [reflexivity|]. by constructor. }
    destruct (IH (ProxyConn conn node)
                 (t ++ [EvConnect conn (Addr node) None;
                        EvHandshake (ProxyConn conn node) None]))
      as (r & t' & Hrun & Hlay).
    exists r, t'. split; [exact Hrun|]. by apply hop_layering_step.
Qed.


(** When the world lets every Connect and Handshake succeed, the only
    [hop_layering] is the full one. *)
Lemma hop_layering_all_ok (conn : Conn) (rest : list ProxyNode) (t t' : trace)
    (r : ConnErr) :
  (forall t conn addr, connect_result w t conn addr = None) ->
  (forall t pc, handshake_result w t pc = None) ->
  hop_layering w conn rest t r t' ->
  r = (Some (fold_left ProxyConn rest conn), None) /\
  t' = t ++ layered_steps conn rest.
Proof.
  intros Hcs Hhs.
  induction 1 as [conn t|conn node rest t e Hc|conn node rest t e Hc Hh
                 |conn node rest t t' r Hc Hh _ IH].
  - by rewrite app_nil_r.
  - by rewrite Hcs in Hc.
  - by rewrite Hhs in Hh.
  - destruct IH as (-> & ->). split; [reflexivity|]. by norm_trace.
Qed.


(** [travelNodes] with the shortcut disabled, in full: the dial of the
    first node, keep-alive, the first handshake, then the hop loop. *)
Lemma travelNodes_raw_run (c : ProxyChain) (node : ProxyNode)
    (rest : list ProxyNode) (t : trace) :
  Http2Enabled c = false ->
  let cc := TCPConn (length t) (Addr node) in
  let pc0 := ProxyConn cc node in
  let opened := [EvDial (Addr node) (inl cc); EvKeepAlive cc] in
  match dial_result w t (Addr node) with
  | Some e =>
      travelNodes w hook c (node :: rest) t
      = (Done (None, Some e), t ++ [EvDial (Addr node) (inr e)])
  | None =>
      match handshake_result w (t ++ opened) pc0 with
      | Some e =>
          travelNodes w hook c (node :: rest) t
          = (Done (None, Some e), t ++ opened ++ [EvHandshake pc0 (Some e)])
      | None =>
          exists r t',
            hop_layering w pc0 rest (t ++ opened ++ [EvHandshake pc0 None]) r t' /\
            travelNodes w hook c (node :: rest) t = (Done r, t')
      end
  end.
Proof.
  intros Hoff cc pc0 opened.
  destruct (dial_result w t (Addr node)) as [e|] eqn:Hdial.
  { unfold travelNodes, index, net_DialTimeout. rewrite Hoff. run_go. simpl.
    by rewrite Hdial. }
  rewrite (travelNodes_raw_first_hop w hook c node rest t Hoff Hdial).
  cbv zeta. fold cc pc0.
  change (t ++ [EvDial (Addr node) (inl cc); EvKeepAlive cc]) with (t ++ opened).
  destruct (handshake_result w (t ++ opened) pc0) as [e|].
  { subst opened. by norm_trace. }
  destruct (travelNodes_range_layering rest pc0
              (t ++ [EvDial (Addr node) (inl cc); EvKeepAlive cc;
                     EvHandshake pc0 None]))
    as (r & t' & Hrun & Hlay).
  exists r, t'. subst opened. norm_trace. done.
Qed.

Lemma GetConn_disabled (c : ProxyChain) (t : trace) :
  Http2Enabled c = false -> nodes c <> [] ->
  GetConn w hook c t
  = returned_as_net_Conn (travelNodes w hook c (nodes c) t).
Proof.
  intros Hoff Hne. unfold GetConn.
  destruct (nodes c) as [|node rest]; [done|].
  change (len (node :: rest) =? 0)%Z with false. cbv iota zeta. rewrite Hoff.
  unfold bind, ret, returned_as_net_Conn.
  by destruct (travelNodes w hook c (node :: rest) t) as [[r| |] t1].
Qed.

Lemma GetConn_raw (c : ProxyChain) (t : trace) :
  Http2Enabled c = false ->
  exists evs r,
    GetConn w hook c t = (Done r, t ++ evs) /\
    forallb raw_event evs = true /\
    forall conn, r = (Some conn, None) ->
                 hops conn = nodes c /\ is_TCPConn (base conn) = true.
Proof.
  intros Hoff. destruct (nodes c) as [|node rest] eqn:Hnodes.
  - unfold GetConn. rewrite Hnodes.
    exists [], (None, Some ErrEmptyChain). simpl. unfold ret.
    rewrite app_nil_r. done.
  - rewrite GetConn_disabled by (by rewrite ?Hnodes). rewrite Hnodes.
    destruct (travelNodes_raw c node rest t Hoff)
      as (evs & r & Hrun & Hevs & Hres).
    rewrite Hrun. unfold returned_as_net_Conn.
    eexists _, _. split; [reflexivity|]. split; [exact Hevs|].
    intros conn Hconn.
    destruct Hres as [(pc & -> & Hhops & Hbase)|(e & ->)]; [|discriminate Hconn].
    simpl in Hconn. injection Hconn as <-. by rewrite Hbase.
Qed.

Lemma dialWithNodes_raw (c : ProxyChain) (addr : string) (t : trace) :
  Http2Enabled c = false ->
  exists evs r,
    dialWithNodes w hook c addr (nodes c) t = (Done r, t ++ evs) /\
    forallb raw_event evs = true /\
    forall conn, fst r = Some conn ->
                 hops conn = nodes c /\ is_TCPConn (base conn) = true.
Proof.
  intros Hoff. unfold dialWithNodes.
  destruct (nodes c) as [|node rest] eqn:Hnodes.
  - change (len [] =? 0)%Z with true. cbv iota. unfold net_DialTimeout.
    destruct (dial_result w t addr); eexists _, _;
      (split; [reflexivity|]); (split; [reflexivity|]);
      intros conn Hconn; [done|].
    simpl in Hconn. by injection Hconn as <-.
  - change (len (node :: rest) =? 0)%Z with false. cbv iota. rewrite Hoff.
    cbv zeta. unfold bind at 1.
    destruct (travelNodes_raw c node rest t Hoff)
      as (evs & r & Hrun & Hevs & Hres).
    rewrite Hrun.
    destruct Hres as [(pc & -> & Hhops & Hbase)|(e & ->)].
    + run_go. destruct (connect_result w (t ++ evs) pc addr) eqn:Hc;
        norm_trace; eexists _, _; (split; [reflexivity|]);
        (split; [rewrite forallb_app, Hevs; reflexivity|]);
        intros conn Hconn; [done|].
      simpl in Hconn. injection Hconn as <-. by rewrite Hbase.
    + unfold ret. exists evs, (None, Some e). done.
Qed.

End RawPath.

Lemma unactivated_fields (parse : string -> ProxyNode + error) (c : ProxyChain) :
  unactivated parse c ->
  http2Enabled c = false /\ http2NodeIndex c = (-1)%Z /\ http2Client c = None.
Proof.
  induction 1 as [ns|c ns _ IH|c snode _ IH|c _ IH Hnil]; simpl.
  - done.
  - done.
  - destruct (AddProxyNodeString_shortcut_fields parse snode c) as (-> & -> & ->).
    done.
  - unfold TryEnableHttp2. by rewrite Hnil.
Qed.

(* ===================================================================== *)
(** ** The shortcut path *)
(* ===================================================================== *)

Lemma int_add_1 (i : Z) : (0 <= i < MaxInt)%Z -> int_add i 1 = (i + 1)%Z.
Proof.
  unfold MaxInt, int_add, int_wrap. intros Hi.
  rewrite Z.mod_small; lia.
Qed.

Section ShortcutPath.

Variable w : World.
Variable hook : Http2Client -> string -> string -> tls_Config -> M ConnErr.

Lemma index_lookup {A} (s : list A) (i : Z) (x : A) (t : trace) :
  (0 <= i)%Z -> s !! Z.to_nat i = Some x -> index s i t = (Done x, t).
Proof.
  intros Hi Hx. unfold index. rewrite Hx.
  by destruct (Z.leb_spec 0 i); [|lia].
Qed.

Lemma index_Done_inv {A} (s : list A) (i : Z) (x : A) (t t' : trace) :
  index s i t = (Done x, t') -> (0 <= i)%Z /\ s !! Z.to_nat i = Some x /\ t' = t.
Proof.
  unfold index. destruct (Z.leb_spec 0 i); [|discriminate].
  destruct (s !! Z.to_nat i); unfold ret, panic; intros [= <- <-]; done.
Qed.

(** [getHttp2Conn] on an enabled chain whose shortcut index names
    [node]: one pipe, one request through the client, then the status
    check. *)
Lemma getHttp2Conn_run (c : ProxyChain) (node : ProxyNode) (t : trace) :
  Http2Enabled c = true ->
  (0 <= http2NodeIndex c)%Z ->
  nodes c !! Z.to_nat (http2NodeIndex c) = Some node ->
  let p := length t in
  getHttp2Conn w hook c t
  = match Do w hook (http2Client c) (switch_request node p) (t ++ [EvPipe p]) with
    | (Done (_, Some err), t1) => (Done (None, Some err), t1)
    | (Done (None, None), t1) =>
        (Panic "invalid memory address or nil pointer dereference", t1)
    | (Done (Some resp, None), t1) =>
        if (Response.StatusCode resp =? 200)%Z
        then (Done (Some (http2Conn (Response.Body resp) p), None), t1)
        else (Done (None, Some (errors_New (Response.Status resp))),
              t1 ++ [EvBodyClose (Response.Body resp)])
    | (Panic msg, t1) => (Panic msg, t1)
    | (OutOfFuel, t1) => (OutOfFuel, t1)
    end.
Proof.
  intros Hon Hidx Hnode p. unfold getHttp2Conn. rewrite Hon. cbn [negb].
  unfold bind at 1. rewrite (index_lookup _ _ node t Hidx Hnode).
  run_go. fold p.
  destruct (Do w hook (http2Client c) (switch_request node p) (t ++ [EvPipe p]))
    as [[[[resp|] [err|]]|msg|] t1]; try reflexivity.
  unfold StatusOK. by destruct (Response.StatusCode resp =? 200)%Z.
Qed.

Lemma getHttp2Conn_success_inv (c : ProxyChain) (conn : Conn) (t t1 : trace) :
  getHttp2Conn w hook c t = (Done (Some conn, None), t1) ->
  Http2Enabled c = true /\ (0 <= http2NodeIndex c)%Z /\
  (exists node, nodes c !! Z.to_nat (http2NodeIndex c) = Some node) /\
  is_http2Conn conn = true.
Proof.
  intros Hrun.
  destruct (Http2Enabled c) eqn:Hon.
  2:{ unfold getHttp2Conn in Hrun. rewrite Hon in Hrun. discriminate Hrun. }
  destruct (index (nodes c) (http2NodeIndex c) t) as [[node| |] t'] eqn:Hi.
  2,3: unfold getHttp2Conn in Hrun; rewrite Hon in Hrun; cbn [negb] in Hrun;
       unfold bind at 1 in Hrun; rewrite Hi in Hrun; discriminate Hrun.
  apply index_Done_inv in Hi as (Hidx & Hnode & ->).
  rewrite (getHttp2Conn_run c node t Hon Hidx Hnode) in Hrun. cbv zeta in Hrun.
  repeat split; eauto.
  destruct (Do _ _ _ _ _) as [[[[resp|] [err|]]|msg|] t2]; try discriminate Hrun.
  destruct (Response.StatusCode resp =? 200)%Z; [|discriminate Hrun].
  by injection Hrun as <- _.
Qed.

Lemma http2Connect_run (c : ProxyChain) (addr : string) (t : trace) :
  http2Connect w hook c addr t
  = match getHttp2Conn w hook c t with
    | (Done (_, Some err), t1) => (Done (None, Some err), t1)
    | (Done (None, None), t1) =>
        (Panic "invalid memory address or nil pointer dereference", t1)
    | (Done (Some conn, None), t1) =>
        match index (nodes c) (http2NodeIndex c) t1 with
        | (Done node, _) =>
            let pc := ProxyConn conn node in
            match connect_result w t1 pc addr with
            | None => (Done (Some conn, None), t1 ++ [EvConnect pc addr None])
            | Some e =>
                (Done (None, Some e), t1 ++ [EvConnect pc addr (Some e); EvClose pc])
            end
        | (Panic msg, t2) => (Panic msg, t2)
        | (OutOfFuel, t2) => (OutOfFuel, t2)
        end
    | (Panic msg, t1) => (Panic msg, t1)
    | (OutOfFuel, t1) => (OutOfFuel, t1)
    end.
Proof.
  unfold http2Connect. unfold bind at 1.
  destruct (getHttp2Conn w hook c t) as [[[[conn|] [err|]]|msg|] t1];
    try reflexivity.
  unfold bind at 1.
  destruct (index (nodes c) (http2NodeIndex c) t1) as [[node| |] t2] eqn:Hi;
    try reflexivity.
  apply index_Done_inv in Hi as (_ & _ & ->). run_go.
  destruct (connect_result w t1 (ProxyConn conn node) addr); norm_trace; done.
Qed.

Lemma http2Connect_success_inv (c : ProxyChain) (addr : string) (conn : Conn)
    (t t1 : trace) :
  http2Connect w hook c addr t = (Done (Some conn, None), t1) ->
  is_http2Conn conn = true.
Proof.
  rewrite http2Connect_run.
  destruct (getHttp2Conn w hook c t) as [[[[conn'|] [err|]]|msg|] t'] eqn:Hget;
    try discriminate.
  apply getHttp2Conn_success_inv in Hget as (_ & _ & _ & Hconn).
  destruct (index _ _ _) as [[node| |] t2]; try discriminate.
  cbv zeta. destruct (connect_result _ _ _ _); [discriminate|].
  by intros [= <- _].
Qed.

(** With the shortcut enabled, [travelNodes] takes the first node's
    stream from [http2Connect] and layers the list on it. *)
Lemma travelNodes_shortcut (c : ProxyChain) (node : ProxyNode)
    (rest : list ProxyNode) (t : trace) :
  Http2Enabled c = true ->
  match http2Connect w hook c (Addr node) t with
  | (Done (Some cc, None), t1) =>
      is_http2Conn cc = true /\
      exists evs r,
        travelNodes w hook c (node :: rest) t = (Done r, t1 ++ evs) /\
        forallb layer_event evs = true /\
        ((exists pc, r = (Some pc, None) /\ hops pc = node :: rest /\ base pc = cc) \/
         (exists e, r = (None, Some e)))
  | (Done (_, Some e), t1) =>
      travelNodes w hook c (node :: rest) t = (Done (None, Some e), t1)
  | (Done (None, None), t1) =>
      travelNodes w hook c (node :: rest) t
      = (Panic "invalid memory address or nil pointer dereference", t1)
  | (Panic msg, t1) => travelNodes w hook c (node :: rest) t = (Panic msg, t1)
  | (OutOfFuel, t1) => travelNodes w hook c (node :: rest) t = (OutOfFuel, t1)
  end.
Proof.
  intros Hon. unfold travelNodes, index. rewrite Hon. run_go. simpl.
  destruct (http2Connect w hook c (Addr node) t)
    as [[[[cc|] [err|]]|msg|] t1] eqn:Hconn; try reflexivity.
  pose proof (http2Connect_success_inv c _ _ _ _ Hconn) as Hcc.
  split; [exact Hcc|].
  change (drop 0 rest) with rest. destruct (handshake_result w _ _) as [e|] eqn:Hh; norm_trace.
  { eexists _, _. split; [reflexivity|]. eauto. }
  match goal with
  | |- context [travelNodes_range w ?pc rest ?t2] =>
      destruct (travelNodes_range_layers w rest pc t2)
        as (evs & r & Hrun & Hevs & Hres)
  end.
  rewrite Hrun. norm_trace.
  eexists _, _. split; [reflexivity|]. split; [simpl; exact Hevs|].
  destruct Hres as [(pc & -> & Hhops & Hbase)|(e & ->)]; [left|right; eauto].
  exists pc. split; [done|].
  destruct cc; try discriminate Hcc. simpl in Hhops, Hbase. done.
Qed.

Lemma travelNodes_shortcut_first_hop (c : ProxyChain) (node : ProxyNode)
    (rest : list ProxyNode) (t t1 : trace) (cc : Conn) :
  Http2Enabled c = true ->
  http2Connect w hook c (Addr node) t = (Done (Some cc, None), t1) ->
  let pc := ProxyConn cc node in
  travelNodes w hook c (node :: rest) t
  = match handshake_result w (t1 ++ [EvKeepAlive cc]) pc with
    | Some e => (Done (None, Some e), t1 ++ [EvKeepAlive cc; EvHandshake pc (Some e)])
    | None =>
        travelNodes_range w pc rest (t1 ++ [EvKeepAlive cc; EvHandshake pc None])
    end.
Proof.
  intros Hon Hconn. unfold travelNodes, index. rewrite Hon. run_go. simpl.
  rewrite Hconn. change (drop 0 rest) with rest.
  destruct (handshake_result w _ _); norm_trace; reflexivity.
Qed.


End ShortcutPath.

(** C2, what the code does on the path the claim describes. When the
    stream to the first node has been opened (by a TCP dial with the
    shortcut disabled, by [http2Connect] with the shortcut enabled) and
    that node's handshake fails, [travelNodes] returns the handshake
    error and no connection, and its trace ends with the failed
    handshake: the deferred cleanup sees a nil [conn], no Close is
    issued, and the stream just opened is left open. *)
Theorem travelNodes_first_handshake_failure :
  forall (w : World) hook (c : ProxyChain) (node : ProxyNode)
         (rest : list ProxyNode) (t : trace) (e : error),
    (Http2Enabled c = false ->
     let cc := TCPConn (length t) (Addr node) in
     let pc := ProxyConn cc node in
     dial_result w t (Addr node) = None ->
     handshake_result w (t ++ [EvDial (Addr node) (inl cc); EvKeepAlive cc]) pc
     = Some e ->
     let evs := [EvDial (Addr node) (inl cc); EvKeepAlive cc;
                 EvHandshake pc (Some e)] in
     travelNodes w hook c (node :: rest) t = (Done (None, Some e), t ++ evs) /\
     closed_in evs cc = false)
    /\
    (forall cc t1,
        Http2Enabled c = true ->
        http2Connect w hook c (Addr node) t = (Done (Some cc, None), t1) ->
        let pc := ProxyConn cc node in
        handshake_result w (t1 ++ [EvKeepAlive cc]) pc = Some e ->
        let evs := [EvKeepAlive cc; EvHandshake pc (Some e)] in
        travelNodes w hook c (node :: rest) t = (Done (None, Some e), t1 ++ evs) /\
        closed_in evs cc = false).
Proof.
  intros w hook c node rest t e. split.
  - intros Hoff cc pc Hdial Hhs evs.
    rewrite (travelNodes_raw_first_hop w hook c node rest t Hoff Hdial).
    cbv zeta. fold cc pc. rewrite Hhs. norm_trace. split; [done|].
    apply closed_in_no_close. intros c' Hin. simpl in Hin.
    repeat destruct Hin as [Hin|Hin]; try discriminate Hin. done.
  - intros cc t1 Hon Hconn pc Hhs evs.
    rewrite (travelNodes_shortcut_first_hop w hook c node rest t t1 cc Hon Hconn).
    cbv zeta. fold pc. rewrite Hhs. split; [done|].
    apply closed_in_no_close. intros c' Hin. simpl in Hin.
    repeat destruct Hin as [Hin|Hin]; try discriminate Hin. done.
Qed.

Lemma travelNodes_first_handshake_failure_witness :
  let c := NewProxyChain [nodeA; nodeB] in
  let cc := TCPConn 0 "a:1080" in
  let evs := [EvDial "a:1080" (inl cc); EvKeepAlive cc;
              EvHandshake (ProxyConn cc nodeA) (Some (ExternalError "handshake"))] in
  (travelNodes (world_handshake_fails nodeA) (DialTLS world_ok 1 c) c
     [nodeA; nodeB] []
   = (Done (None, Some (ExternalError "handshake")), evs) /\
   closed_in evs cc = false)
  /\
  (let w := world_handshake_fails nodeC in
   let hook := DialTLS w 1 chainHC in
   let stream := http2Conn 2 0 in
   let t1 := snd (http2Connect w hook chainHC "c:1080" []) in
   let evs := [EvKeepAlive stream;
               EvHandshake (ProxyConn stream nodeC)
                 (Some (ExternalError "handshake"))] in
   travelNodes w hook chainHC [nodeC] []
   = (Done (None, Some (ExternalError "handshake")), t1 ++ evs) /\
   closed_in evs stream = false).
Proof.
  intros c cc evs. split.
  - apply (proj1 (travelNodes_first_handshake_failure
                    (world_handshake_fails nodeA) (DialTLS world_ok 1 c) c
                    nodeA [nodeB] [] (ExternalError "handshake"))
             eq_refl eq_refl eq_refl).
  - intros w hook stream t1 evs'.
    apply (proj2 (travelNodes_first_handshake_failure w hook chainHC
                    nodeC [] [] (ExternalError "handshake"))
             stream t1 eq_refl eq_refl eq_refl).
Defined.

Lemma GetConn_after_shortcut_index (w : World) hook (c : ProxyChain) (t : trace) :
  Http2Enabled c = true ->
  (0 <= http2NodeIndex c < len (nodes c))%Z ->
  (len (nodes c) <= MaxInt)%Z ->
  GetConn w hook c t
  = match drop (Z.to_nat (http2NodeIndex c + 1)) (nodes c) with
    | [] => getHttp2Conn w hook c t
    | node :: rest =>
        returned_as_net_Conn (travelNodes w hook c (node :: rest) t)
    end.
Proof.
  intros Hon Hi Hmax. unfold GetConn.
  destruct (Z.eqb_spec (len (nodes c)) 0) as [Hz|_]; [lia|].
  rewrite Hon, int_add_1 by lia. unfold slice_from.
  destruct (Z.leb_spec 0 (http2NodeIndex c + 1)); [|lia].
  destruct (Z.leb_spec (http2NodeIndex c + 1) (len (nodes c))); [|lia].
  cbn [andb]. run_go.
  destruct (drop (Z.to_nat (http2NodeIndex c + 1)) (nodes c)) as [|node rest];
    [reflexivity|].
  change (len (node :: rest) =? 0)%Z with false. cbv iota.
  unfold returned_as_net_Conn.
  by destruct (travelNodes w hook c (node :: rest) t) as [[r| |] t1].
Qed.


(** C7, as amended. [http2Connect] first opens the tunnel stream with
    [getHttp2Conn]; if that fails it returns the error.  On the stream it
    then performs exactly one Connect(addr) through a [ProxyConn] for the
    shortcut node, and no handshake.  If the Connect succeeds the tunnel
    stream itself is returned; if it fails, the [ProxyConn] (and with it
    the tunnel stream) is closed before the error is returned, and no
    connection is returned. *)
Theorem http2Connect_one_connect :
  forall (w : World) hook (c : ProxyChain) (addr : string) (t : trace),
    (forall conn t1,
        getHttp2Conn w hook c t = (Done (Some conn, None), t1) ->
        exists node,
          nodes c !! Z.to_nat (http2NodeIndex c) = Some node /\
          let pc := ProxyConn conn node in
          match connect_result w t1 pc addr with
          | None =>
              http2Connect w hook c addr t
              = (Done (Some conn, None), t1 ++ [EvConnect pc addr None])
          | Some e =>
              http2Connect w hook c addr t
              = (Done (None, Some e), t1 ++ [EvConnect pc addr (Some e); EvClose pc]) /\
              closed_in [EvConnect pc addr (Some e); EvClose pc] conn = true
          end) /\
    (forall e t1,
        getHttp2Conn w hook c t = (Done (None, Some e), t1) ->
        http2Connect w hook c addr t = (Done (None, Some e), t1)).
Proof.
  intros w hook c addr t. split.
  - intros conn t1 Hget.
    destruct (getHttp2Conn_success_inv w hook c conn t t1 Hget)
      as (_ & Hidx & (node & Hnode) & _).
    exists node. split; [exact Hnode|]. cbv zeta.
    rewrite http2Connect_run, Hget, (index_lookup _ _ node t1 Hidx Hnode).
    cbv zeta. destruct (connect_result w t1 (ProxyConn conn node) addr) as [e|];
      [|done].
    split; [done|].
    apply (closed_in_intro _ _ (ProxyConn conn node)); simpl; [auto|].
    apply list_elem_of_further, layers_self.
  - intros e t1 Hget. by rewrite http2Connect_run, Hget.
Qed.

Lemma http2Connect_one_connect_witness :
  let stream := http2Conn 2 0 in
  let pc := ProxyConn stream nodeH in
  (let hook := DialTLS world_ok 1 chainHC in
   let t1 := snd (getHttp2Conn world_ok hook chainHC []) in
   http2Connect world_ok hook chainHC "c:1080" []
   = (Done (Some stream, None), t1 ++ [EvConnect pc "c:1080" None]))
  /\
  (let w := world_connect_fails "c:1080" in
   let hook := DialTLS w 1 chainHC in
   let t1 := snd (getHttp2Conn w hook chainHC []) in
   let e := ExternalError "connect" in
   http2Connect w hook chainHC "c:1080" []
   = (Done (None, Some e), t1 ++ [EvConnect pc "c:1080" (Some e); EvClose pc])).
Proof.
  intros stream pc. split.
  - intros hook t1.
    destruct (proj1 (http2Connect_one_connect world_ok hook chainHC "c:1080" [])
                stream t1 eq_refl) as (node & Hnode & Hrun).
    injection Hnode as <-. exact Hrun.
  - intros w hook t1 e.
    destruct (proj1 (http2Connect_one_connect w hook chainHC "c:1080" [])
                stream t1 eq_refl) as (node & Hnode & Hrun).
    injection Hnode as <-. exact (proj1 Hrun).
Defined.

(** C7, as stated, fails: [http2Connect] performs no handshake.  On the
    activated chain [[H; C]], with every operation succeeding, the call
    returns the tunnel stream and its trace holds no Handshake event. *)
Lemma http2Connect_performs_no_handshake :
  let run := http2Connect world_ok (DialTLS world_ok 1 chainHC) chainHC "c:1080" [] in
  fst run = Done (Some (http2Conn 2 0), None) /\
  ~ (exists pc res, In (EvHandshake pc res) (snd run)).
Proof.
  split; [reflexivity|].
  intros (pc & res & Hin). vm_compute in Hin.
  repeat destruct Hin as [Hin|Hin]; try discriminate Hin. exact Hin.
Qed.


(** C6. On an enabled chain whose shortcut index names [node],
    [getHttp2Conn] sends through the client a request with method
    CONNECT, scheme https, protocol HTTP/2.0 (major 2, minor 0), URL host
    and Host equal to [node]'s address, and a [Proxy-Switch] header with
    the value ["gost"].  Whenever the client answers with a response, the
    call returns a connection if and only if the status code is 200: on
    200 it returns the stream made of the response body and the pipe; on
    any other code it closes the response body, as the last step, and
    returns [errors.New] of the response's status line. *)
Theorem getHttp2Conn_switch_request :
  forall (w : World) hook (c : ProxyChain) (node : ProxyNode) (t : trace),
    Http2Enabled c = true ->
    (0 <= http2NodeIndex c)%Z ->
    nodes c !! Z.to_nat (http2NodeIndex c) = Some node ->
    let p := length t in
    let req := switch_request node p in
    (Request.Method req = "CONNECT" /\
     url.Scheme (Request.URL req) = "https" /\
     url.Host (Request.URL req) = Addr node /\
     Request.Host req = Addr node /\
     Request.Proto req = "HTTP/2.0" /\
     Request.ProtoMajor req = 2%Z /\ Request.ProtoMinor req = 0%Z /\
     Request.Header req !! "Proxy-Switch" = Some ["gost"]) /\
    forall resp t1,
      Do w hook (http2Client c) req (t ++ [EvPipe p]) = (Done (Some resp, None), t1) ->
      exists r t',
        getHttp2Conn w hook c t = (Done r, t') /\
        ((exists conn, fst r = Some conn) <-> Response.StatusCode resp = 200%Z) /\
        (Response.StatusCode resp = 200%Z ->
         r = (Some (http2Conn (Response.Body resp) p), None) /\ t' = t1) /\
        (Response.StatusCode resp <> 200%Z ->
         r = (None, Some (errors_New (Response.Status resp))) /\
         t' = t1 ++ [EvBodyClose (Response.Body resp)]).
Proof.
  intros w hook c node t Hon Hidx Hnode p req. split.
  - repeat (split; [reflexivity|]). apply lookup_insert_eq.
  - intros resp t1 Hdo.
    rewrite (getHttp2Conn_run w hook c node t Hon Hidx Hnode). cbv zeta.
    fold p req. rewrite Hdo.
    destruct (Z.eqb_spec (Response.StatusCode resp) 200) as [Hok|Hno].
    + eexists _, _. split; [reflexivity|]. simpl.
      split; [split; eauto|]. split; [done|]. intros Hne. by destruct Hne.
    + eexists _, _. split; [reflexivity|]. simpl.
      split; [split; [intros (conn & Hconn); discriminate Hconn|done]|].
      split; [done|]. done.
Qed.

Lemma getHttp2Conn_switch_request_witness :
  let w := world_status 503 "503 Service Unavailable" in
  let hook := DialTLS w 1 chainHC in
  fst (getHttp2Conn w hook chainHC [])
  = Done (None, Some (errors_New "503 Service Unavailable")) /\
  last (snd (getHttp2Conn w hook chainHC [])) = Some (EvBodyClose 2).
Proof.
  intros w hook.
  pose (req := switch_request nodeH 0).
  pose (run := Do w hook (http2Client chainHC) req [EvPipe 0]).
  pose (resp := {| Response.Status := "503 Service Unavailable";
                   Response.StatusCode := 503; Response.Body := 2 |}).
  destruct (proj2 (getHttp2Conn_switch_request w hook chainHC nodeH []
                     eq_refl ltac:(discriminate) eq_refl) resp (snd run) eq_refl)
    as (r & t' & Hrun & _ & _ & Hfail).
  destruct (Hfail ltac:(discriminate)) as (-> & ->).
  rewrite Hrun. split; reflexivity.
Defined.

(** C1, what the code does when the hook is called. After activation has
    recorded the first shortcut node at an index [i >= 1], the client's
    [DialTLS] closure holds the prefix [nodes[:i]]; when it is called,
    [dialWithNodes] finds the shortcut enabled and slices that prefix at
    [i+1], beyond its length [i]: the Go runtime panics with "slice
    bounds out of range" before any network operation. *)
Theorem DialTLS_behind_prefix_panics :
  forall (w : World) (fuel : nat) (pre : list ProxyNode) (node : ProxyNode)
         (post : list ProxyNode) (network addr : string) (cfg : tls_Config)
         (t : trace),
    pre <> [] ->
    Forall (fun n => ~ requests_shortcut n) pre ->
    requests_shortcut node ->
    (len (pre ++ node :: post) <= MaxInt)%Z ->
    let c := TryEnableHttp2 (NewProxyChain (pre ++ node :: post)) in
    http2Enabled c = true /\ http2NodeIndex c = len pre /\ (1 <= len pre)%Z /\
    exists client,
      http2Client c = Some client /\ DialTLS_nodes client = pre /\
      DialTLS w (S fuel) c client network addr cfg t
      = (Panic "slice bounds out of range", t).
Proof.
  intros w fuel pre node post network addr cfg t Hpre Hraw Hnode Hmax c.
  assert (Hlen : (1 <= len pre)%Z).
  { destruct pre; [done|]. unfold len. simpl. lia. }
  assert (Hlt : (len pre < MaxInt)%Z).
  { unfold len in *. rewrite length_app in Hmax. simpl in Hmax. lia. }
  subst c.
  rewrite (TryEnableHttp2_activated (NewProxyChain (pre ++ node :: post))
             pre node post eq_refl Hraw Hnode).
  cbn [http2Enabled http2NodeIndex http2Client]. repeat split; [done|].
  eexists. split; [reflexivity|]. split; [reflexivity|].
  cbn [DialTLS DialTLS_nodes]. unfold bind at 1. unfold dialWithNodes.
  destruct (Z.eqb_spec (len pre) 0) as [Hz|_]; [lia|].
  unfold Http2Enabled. cbn [http2Enabled http2NodeIndex].
  rewrite int_add_1 by lia. unfold bind at 1. unfold slice_from.
  destruct (Z.leb_spec (len pre + 1) (len pre)); [lia|].
  rewrite andb_false_r. reflexivity.
Qed.

Lemma DialTLS_behind_prefix_panics_witness :
  (exists client,
      http2Client chainAHC = Some client /\ DialTLS_nodes client = [nodeA] /\
      DialTLS world_ok 1 chainAHC client "tcp" "h:443"
        {| InsecureSkipVerify := true; ServerName := "h:443" |} []
      = (Panic "slice bounds out of range", [])) /\
  fst (GetConn world_ok (DialTLS world_ok 1 chainAHC) chainAHC [])
  = Panic "slice bounds out of range".
Proof.
  split; [|reflexivity].
  apply (DialTLS_behind_prefix_panics world_ok 0 [nodeA] nodeH [nodeC] "tcp" "h:443"
           {| InsecureSkipVerify := true; ServerName := "h:443" |} []).
  - discriminate.
  - repeat constructor. discriminate.
  - reflexivity.
  - vm_compute. discriminate.
Defined.

(* ===================================================================== *)
(** ** Further properties of the registry *)
(* ===================================================================== *)

(** X1. When every entry of a batch parses, [AddProxyNodeString] returns
    a nil error and the registry holds its former nodes followed by the
    parsed nodes, in the order of the batch. *)
Theorem AddProxyNodeString_appends_parsed_batch :
  forall (parse : string -> ProxyNode + error) (c : ProxyChain)
         (snode : list string) (parsed : list ProxyNode),
    Forall2 (fun sn node => parse sn = inl node) snode parsed ->
    fst (AddProxyNodeString parse c snode) = None /\
    Nodes (snd (AddProxyNodeString parse c snode)) = Nodes c ++ parsed.
Proof.
  intros parse c snode parsed Hall.
  by rewrite (AddProxyNodeString_all_parsed parse snode c parsed Hall).
Qed.

Lemma AddProxyNodeString_appends_parsed_batch_witness :
  fst (AddProxyNodeString sample_parser (NewProxyChain [nodeA]) ["b:1080"; "c:1080"])
  = None /\
  Nodes (snd (AddProxyNodeString sample_parser (NewProxyChain [nodeA])
                ["b:1080"; "c:1080"]))
  = Nodes (NewProxyChain [nodeA]) ++ [nodeB; nodeC].
Proof.
  apply (AddProxyNodeString_appends_parsed_batch sample_parser
           (NewProxyChain [nodeA]) ["b:1080"; "c:1080"] [nodeB; nodeC]).
  repeat constructor.
Defined.

(** X2. The registry is append-only. Whatever the batch,
    [AddProxyNodeString] keeps the nodes already registered, in place,
    and adds after them the parsed forms of a leading part of the batch
    (all of it exactly when no error is returned); it never touches
    [lastNode] or the shortcut fields. *)
Theorem AddProxyNodeString_append_only :
  forall (parse : string -> ProxyNode + error) (snode : list string)
         (c : ProxyChain),
    let r := AddProxyNodeString parse c snode in
    (exists added,
        nodes (snd r) = nodes c ++ added /\
        Forall2 (fun sn node => parse sn = inl node)
                (take (length added) snode) added /\
        (length added <= length snode)%nat /\
        (fst r = None <-> length added = length snode)) /\
    lastNode (snd r) = lastNode c /\
    http2Enabled (snd r) = http2Enabled c /\
    http2NodeIndex (snd r) = http2NodeIndex c /\
    http2Client (snd r) = http2Client c.
Proof.
  intros parse snode. induction snode as [|sn rest IH]; intros c; simpl.
  - split; [|done]. exists []. rewrite app_nil_r. repeat split; constructor.
  - destruct (parse sn) as [node|err] eqn:Hsn; simpl.
    + destruct (IH (AddProxyNode c [node])) as ((added & Hn & Hall & Hle & Hiff) & Hrest).
      split; [|exact Hrest].
      exists (node :: added). simpl in Hn. rewrite <- app_assoc in Hn.
      split; [exact Hn|]. simpl. split; [by constructor|].
      split; [lia|]. rewrite Hiff. lia.
    + split; [|done]. exists []. rewrite app_nil_r.
      repeat split; try constructor; try discriminate; simpl; lia.
Qed.

(* ===================================================================== *)
(** ** Further properties of [Dial] *)
(* ===================================================================== *)

Lemma substring_append_port (a : string) :
  String.substring (String.length a) 1 (a +:+ ":80") = ":".
Proof. induction a as [|ch a IH]; [reflexivity|exact IH]. Qed.

Lemma strings_Contains_append_port (a : string) :
  strings_Contains (a +:+ ":80") ":" = true.
Proof.
  unfold strings_Contains.
  destruct (String.index 0 ":" (a +:+ ":80")) as [m|] eqn:Hidx; [done|].
  exfalso.
  apply (String.index_correct3 0 (String.length a) ":" (a +:+ ":80") Hidx);
    [discriminate|lia|].
  apply substring_append_port.
Qed.

(** X3. An address without a colon is dialled as if ":80" had been
    written after it: [Dial(addr)] and [Dial(addr + ":80")] are the same
    computation, on every chain and in every world. *)
Theorem Dial_default_port :
  forall (w : World) hook (c : ProxyChain) (addr : string) (t : trace),
    strings_Contains addr ":" = false ->
    Dial w hook c addr t = Dial w hook c (addr +:+ ":80") t.
Proof.
  intros w hook c addr t Hno. unfold Dial.
  by rewrite Hno, strings_Contains_append_port.
Qed.

Lemma Dial_default_port_witness :
  Dial world_ok (DialTLS world_ok 1 chainHC) chainHC "example.com" []
  = Dial world_ok (DialTLS world_ok 1 chainHC) chainHC "example.com:80" [].
Proof.
  apply (Dial_default_port world_ok (DialTLS world_ok 1 chainHC) chainHC
           "example.com" [] eq_refl).
Defined.

(** X4. On a chain without nodes [Dial] degenerates to one direct TCP
    dial of the target address (with the default port when none is
    given), whatever the shortcut fields hold: the result is the socket
    or the dialler's error, and the dial is the only event. *)
Theorem Dial_empty_chain :
  forall (w : World) hook (c : ProxyChain) (addr : string) (t : trace),
    nodes c = [] ->
    let target := target_addr addr in
    Dial w hook c addr t
    = match dial_result w t target with
      | None =>
          (Done (Some (TCPConn (length t) target), None),
           t ++ [EvDial target (inl (TCPConn (length t) target))])
      | Some e => (Done (None, Some e), t ++ [EvDial target (inr e)])
      end.
Proof.
  intros w hook c addr t Hnil target. subst target.
  unfold Dial, dialWithNodes, target_addr, net_DialTimeout. rewrite Hnil.
  by destruct (strings_Contains addr ":").
Qed.

Lemma Dial_empty_chain_witness :
  Dial world_ok (DialTLS world_ok 1 (NewProxyChain [])) (NewProxyChain [])
    "example.com" []
  = (Done (Some (TCPConn 0 "example.com:80"), None),
     [EvDial "example.com:80" (inl (TCPConn 0 "example.com:80"))]).
Proof.
  apply (Dial_empty_chain world_ok (DialTLS world_ok 1 (NewProxyChain []))
           (NewProxyChain []) "example.com" [] eq_refl).
Defined.

(* ===================================================================== *)
(** ** Further properties of [travelNodes] *)
(* ===================================================================== *)

Lemma layers_trans (a b c : Conn) :
  a ∈ layers b -> b ∈ layers c -> a ∈ layers c.
Proof.
  intros Hab. induction c as [id addr|inner IH node|r p|inner IH cfg|]; simpl;
    intros Hbc.
  - apply list_elem_of_singleton in Hbc as ->. exact Hab.
  - apply elem_of_cons in Hbc as [->|Hbc]; [exact Hab|].
    apply list_elem_of_further, IH, Hbc.
  - apply list_elem_of_singleton in Hbc as ->. exact Hab.
  - apply elem_of_cons in Hbc as [->|Hbc]; [exact Hab|].
    apply list_elem_of_further, IH, Hbc.
  - apply list_elem_of_singleton in Hbc as ->. exact Hab.
Qed.

Lemma layers_inner (conn : Conn) (node : ProxyNode) :
  conn ∈ layers (ProxyConn conn node).
Proof. simpl. apply list_elem_of_further, layers_self. Qed.

Lemma base_in_layers (c : Conn) : base c ∈ layers c.
Proof.
  induction c as [id addr|inner IH node|r p|inner IH cfg|]; simpl.
  - apply list_elem_of_here.
  - apply list_elem_of_further, IH.
  - apply list_elem_of_here.
  - apply list_elem_of_further, IH.
  - apply list_elem_of_here.
Qed.

Section Layering.

Variable w : World.
Variable hook : Http2Client -> string -> string -> tls_Config -> M ConnErr.

(** The loop of [travelNodes], in full: either every remaining node is
    layered, by exactly the steps [layered_steps], or the run stops at
    the first failing step, closes the layer reached, and returns that
    step's error. *)
Lemma travelNodes_range_outcome (rest : list ProxyNode) :
  forall (conn : Conn) (t : trace),
    travelNodes_range w conn rest t
    = (Done (Some (fold_left ProxyConn rest conn), None),
       t ++ layered_steps conn rest)
    \/
    exists e k failing pc,
      travelNodes_range w conn rest t
      = (Done (None, Some e),
         t ++ take k (layered_steps conn rest) ++ [failing; EvClose pc]) /\
      event_error failing = Some e /\
      conn ∈ layers pc.
Proof.
  induction rest as [|node rest IH]; intros conn t.
  - left. simpl. unfold ret. by rewrite app_nil_r.
  - rewrite travelNodes_range_step. cbv zeta.
    destruct (connect_result w t conn (Addr node)) as [e|] eqn:Hc.
    { right. exists e, 0%nat, (EvConnect conn (Addr node) (Some e)), conn.
      split; [reflexivity|]. split; [reflexivity|apply layers_self]. }
    destruct (handshake_result w _ _) as [e|] eqn:Hh; norm_trace.
    { right. exists e, 1%nat, (EvHandshake (ProxyConn conn node) (Some e)), conn.
      split; [reflexivity|]. split; [reflexivity|apply layers_self]. }
    destruct (IH (ProxyConn conn node)
                 (t ++ [EvConnect conn (Addr node) None;
                        EvHandshake (ProxyConn conn node) None]))
      as [Hok|(e & k & failing & pc & Hrun & Herr & Hin)].
    + left. rewrite Hok. norm_trace. reflexivity.
    + right. exists e, (S (S k)), failing, pc.
      rewrite Hrun. norm_trace. split; [reflexivity|]. split; [exact Herr|].
      apply (layers_trans _ (ProxyConn conn node)); [apply layers_inner|exact Hin].
Qed.

Lemma layered_steps_no_error (rest : list ProxyNode) :
  forall conn : Conn,
    Forall (fun ev => event_error ev = None /\ layer_event ev = true)
           (layered_steps conn rest).
Proof.
  induction rest as [|node rest IH]; intros conn; simpl; [constructor|].
  repeat constructor. apply IH.
Qed.

(** The loop succeeds when every Connect and Handshake it issues does. *)
Lemma travelNodes_range_all_ok (rest : list ProxyNode) :
  (forall t conn addr, connect_result w t conn addr = None) ->
  (forall t pc, handshake_result w t pc = None) ->
  forall (conn : Conn) (t : trace),
    travelNodes_range w conn rest t
    = (Done (Some (fold_left ProxyConn rest conn), None),
       t ++ layered_steps conn rest).
Proof.
  intros Hc Hh. induction rest as [|node rest IH]; intros conn t.
  - simpl. unfold ret. by rewrite app_nil_r.
  - rewrite travelNodes_range_step. cbv zeta. rewrite Hc, Hh, IH. norm_trace.
    reflexivity.
Qed.

End Layering.

(** X6. With the shortcut disabled, a successful [travelNodes] over any
    non-empty list has done exactly this, in this order: dial the first
    node, set keep-alive, handshake the first node, then for each later
    node one Connect to its address on the layer so far and one
    Handshake on the new layer; the connection returned is the nesting
    of one [ProxyConn] per node on the dialled socket.  In a world where
    these operations all succeed the call does return so. *)
Theorem travelNodes_success_trace :
  forall (w : World) hook (c : ProxyChain) (node : ProxyNode)
         (rest : list ProxyNode) (t : trace),
    Http2Enabled c = false ->
    let cc := TCPConn (length t) (Addr node) in
    let pc0 := ProxyConn cc node in
    let steps := [EvDial (Addr node) (inl cc); EvKeepAlive cc; EvHandshake pc0 None]
                 ++ layered_steps pc0 rest in
    (forall pc t',
        travelNodes w hook c (node :: rest) t = (Done (Some pc, None), t') ->
        pc = fold_left ProxyConn rest pc0 /\ t' = t ++ steps) /\
    ((forall t addr, dial_result w t addr = None) ->
     (forall t conn addr, connect_result w t conn addr = None) ->
     (forall t pc, handshake_result w t pc = None) ->
     travelNodes w hook c (node :: rest) t
     = (Done (Some (fold_left ProxyConn rest pc0), None), t ++ steps)).
Proof.
  intros w hook c node rest t Hoff cc pc0 steps. split.
  - intros pc t' Hrun.
    destruct (dial_result w t (Addr node)) as [e|] eqn:Hdial.
    { unfold travelNodes, index, net_DialTimeout in Hrun. rewrite Hoff in Hrun.
      revert Hrun. run_go. simpl. rewrite Hdial. discriminate. }
    rewrite (travelNodes_raw_first_hop w hook c node rest t Hoff Hdial) in Hrun.
    cbv zeta in Hrun. fold cc pc0 in Hrun.
    destruct (handshake_result w _ pc0) as [e|]; [discriminate Hrun|].
    destruct (travelNodes_range_outcome w rest pc0
                (t ++ [EvDial (Addr node) (inl cc); EvKeepAlive cc]
                   ++ [EvHandshake pc0 None]))
      as [Hok|(e & k & failing & pc' & Hfail & _)].
    + norm_trace_in Hok. norm_trace_in Hrun. rewrite Hok in Hrun.
      injection Hrun as <- <-. subst steps. by norm_trace.
    + norm_trace_in Hfail. norm_trace_in Hrun. rewrite Hfail in Hrun.
      discriminate Hrun.
  - intros Hd Hc Hh.
    rewrite (travelNodes_raw_first_hop w hook c node rest t Hoff (Hd _ _)).
    cbv zeta. fold cc pc0. rewrite Hh, (travelNodes_range_all_ok w rest Hc Hh).
    subst steps. by norm_trace.
Qed.

Lemma travelNodes_success_trace_witness :
  let c := NewProxyChain [nodeA; nodeB] in
  let cc := TCPConn 0 "a:1080" in
  let pc0 := ProxyConn cc nodeA in
  travelNodes world_ok (DialTLS world_ok 1 c) c [nodeA; nodeB] []
  = (Done (Some (ProxyConn pc0 nodeB), None),
     [EvDial "a:1080" (inl cc); EvKeepAlive cc; EvHandshake pc0 None;
      EvConnect pc0 "b:1080" None; EvHandshake (ProxyConn pc0 nodeB) None]).
Proof.
  intros c cc pc0.
  apply (proj2 (travelNodes_success_trace world_ok (DialTLS world_ok 1 c) c
                  nodeA [nodeB] [] eq_refl)); reflexivity.
Defined.



(* ===================================================================== *)
(** ** Result pairs *)
(* ===================================================================== *)

Section ResultPairs.

Variable w : World.
Variable hook : Http2Client -> string -> string -> tls_Config -> M ConnErr.

Lemma getHttp2Conn_exclusive (c : ProxyChain) (t t' : trace) (r : ConnErr) :
  getHttp2Conn w hook c t = (Done r, t') -> exclusive r.
Proof.
  intros Hrun. destruct (Http2Enabled c) eqn:Hon.
  2:{ unfold getHttp2Conn in Hrun. rewrite Hon in Hrun.
      injection Hrun as <- _. right. eauto. }
  destruct (index (nodes c) (http2NodeIndex c) t) as [[node| |] t0] eqn:Hi.
  2,3: unfold getHttp2Conn in Hrun; rewrite Hon in Hrun; cbn [negb] in Hrun;
       unfold bind at 1 in Hrun; rewrite Hi in Hrun; discriminate Hrun.
  apply index_Done_inv in Hi as (Hidx & Hnode & ->).
  rewrite (getHttp2Conn_run w hook c node t Hon Hidx Hnode) in Hrun.
  cbv zeta in Hrun.
  destruct (Do _ _ _ _ _) as [[[[resp|] [err|]]|msg|] t2]; try discriminate Hrun.
  - injection Hrun as <- _. right. eauto.
  - destruct (Response.StatusCode resp =? 200)%Z; injection Hrun as <- _;
      [left|right]; eauto.
  - injection Hrun as <- _. right. eauto.
Qed.

Lemma http2Connect_exclusive (c : ProxyChain) (addr : string) (t t' : trace)
    (r : ConnErr) :
  http2Connect w hook c addr t = (Done r, t') -> exclusive r.
Proof.
  rewrite http2Connect_run.
  destruct (getHttp2Conn w hook c t) as [[[[conn|] [err|]]|msg|] t1];
    try discriminate.
  - intros [= <- _]. right. eauto.
  - destruct (index _ _ _) as [[node| |] t2]; try discriminate. cbv zeta.
    destruct (connect_result _ _ _ _); intros [= <- _]; [right|left]; eauto.
  - intros [= <- _]. right. eauto.
Qed.

(** After the slicing, [dialWithNodes] finishes a [travelNodes] run
    with [connect_target]. *)
Lemma dialWithNodes_through (c : ProxyChain) (addr : string)
    (ns : list ProxyNode) (t : trace) :
  (r <- travelNodes w hook c ns ;;
   match r with
   | (_, Some e) => ret (None, Some e)
   | (None, None) => panic "invalid memory address or nil pointer dereference"
   | (Some pc, None) =>
       err <- Connect w pc addr ;;
       match err with
       | Some e => Close pc ;; ret (None, Some e)
       | None => ret (Some pc, None)
       end
   end) t
  = connect_target w addr (travelNodes w hook c ns t).
Proof.
  unfold connect_target. run_go.
  destruct (travelNodes w hook c ns t) as [[[[pc|] [e|]]|msg|] t1];
    try reflexivity.
  destruct (connect_result w t1 pc addr); norm_trace; reflexivity.
Qed.

Lemma len_nonempty {A} (l : list A) : l <> [] -> (len l =? 0)%Z = false.
Proof. destruct l; [done|]. intros _. unfold len. simpl. lia. Qed.

Lemma dialWithNodes_disabled (c : ProxyChain) (addr : string)
    (ns : list ProxyNode) (t : trace) :
  Http2Enabled c = false -> ns <> [] ->
  dialWithNodes w hook c addr ns t
  = connect_target w addr (travelNodes w hook c ns t).
Proof.
  intros Hoff Hne. unfold dialWithNodes. rewrite (len_nonempty ns Hne), Hoff.
  cbv zeta. apply dialWithNodes_through.
Qed.

Lemma dialWithNodes_after_shortcut_index (c : ProxyChain) (addr : string)
    (t : trace) :
  Http2Enabled c = true ->
  (0 <= http2NodeIndex c < len (nodes c))%Z ->
  (len (nodes c) <= MaxInt)%Z ->
  dialWithNodes w hook c addr (nodes c) t
  = match drop (Z.to_nat (http2NodeIndex c + 1)) (nodes c) with
    | [] => http2Connect w hook c addr t
    | node :: rest =>
        connect_target w addr (travelNodes w hook c (node :: rest) t)
    end.
Proof.
  intros Hon Hi Hmax. unfold dialWithNodes.
  destruct (Z.eqb_spec (len (nodes c)) 0) as [Hz|_]; [lia|].
  rewrite Hon, int_add_1 by lia. unfold slice_from.
  destruct (Z.leb_spec 0 (http2NodeIndex c + 1)); [|lia].
  destruct (Z.leb_spec (http2NodeIndex c + 1) (len (nodes c))); [|lia].
  cbn [andb]. cbv zeta. unfold bind at 1. unfold ret at 1.
  destruct (drop (Z.to_nat (http2NodeIndex c + 1)) (nodes c)) as [|node rest];
    [reflexivity|].
  rewrite len_nonempty by done. apply dialWithNodes_through.
Qed.

Lemma connect_target_exclusive (addr : string) (run : outcome ConnErr * trace)
    (r : ConnErr) (t' : trace) :
  connect_target w addr run = (Done r, t') -> exclusive r.
Proof.
  unfold connect_target.
  destruct run as [[[[pc|] [e|]]|msg|] t1]; try discriminate.
  - intros [= <- _]. right. eauto.
  - destruct (connect_result w t1 pc addr); intros [= <- _]; [right|left]; eauto.
  - intros [= <- _]. right. eauto.
Qed.

Lemma dialWithNodes_exclusive (c : ProxyChain) (addr : string)
    (ns : list ProxyNode) (t t' : trace) (r : ConnErr) :
  dialWithNodes w hook c addr ns t = (Done r, t') -> exclusive r.
Proof.
  unfold dialWithNodes. destruct (len ns =? 0)%Z.
  { unfold net_DialTimeout. destruct (dial_result w t addr);
      intros [= <- _]; [right|left]; eauto. }
  cbv zeta. destruct (Http2Enabled c).
  - unfold bind at 1.
    destruct (slice_from ns (int_add (http2NodeIndex c) 1) t)
      as [[ns'| |] t1]; try discriminate.
    destruct (len ns' =? 0)%Z; [apply http2Connect_exclusive|].
    rewrite dialWithNodes_through. apply connect_target_exclusive.
  - rewrite dialWithNodes_through. apply connect_target_exclusive.
Qed.

Lemma travelNodes_result_pair (c : ProxyChain) (ns : list ProxyNode)
    (t t' : trace) (r : ConnErr) :
  travelNodes w hook c ns t = (Done r, t') ->
  (exists pc, r = (Some pc, None) /\ pc <> nil_ProxyConn) \/
  (exists e, r = (None, Some e)).
Proof.
  destruct ns as [|node rest]; [discriminate|].
  assert (Hnil : forall pc, hops pc = node :: rest -> pc <> nil_ProxyConn).
  { intros pc Hhops ->. discriminate Hhops. }
  destruct (Http2Enabled c) eqn:Hon.
  - pose proof (travelNodes_shortcut w hook c node rest t Hon) as Hs.
    destruct (http2Connect w hook c (Addr node) t)
      as [[[[cc|] [err|]]|msg|] t1].
    + rewrite Hs. intros [= <- _]. right. eauto.
    + destruct Hs as (_ & evs & r' & -> & _ & Hres). intros [= <- _].
      destruct Hres as [(pc & -> & Hhops & _)|(e & ->)]; [left|right]; eauto.
    + rewrite Hs. intros [= <- _]. right. eauto.
    + rewrite Hs. discriminate.
    + rewrite Hs. discriminate.
    + rewrite Hs. discriminate.
  - destruct (travelNodes_raw w hook c node rest t Hon)
      as (evs & r' & -> & _ & Hres). intros [= <- _].
    destruct Hres as [(pc & -> & Hhops & _)|(e & ->)]; [left|right]; eauto.
Qed.

Lemma GetConn_result_pair (c : ProxyChain) (t t' : trace) (r : ConnErr) :
  GetConn w hook c t = (Done r, t') -> GetConn_result r.
Proof.
  unfold GetConn. destruct (len (nodes c) =? 0)%Z.
  { intros [= <- _]. right. left. eauto. }
  cbv zeta.
  assert (Htravel : forall ns t0,
             (r0 <- travelNodes w hook c ns ;;
              ret (net_Conn_of_ProxyConn (fst r0), snd r0)) t0 = (Done r, t') ->
             GetConn_result r).
  { intros ns t0. unfold bind, ret.
    destruct (travelNodes w hook c ns t0) as [[r0| |] t1] eqn:Htr;
      try discriminate.
    intros [= <- _].
    destruct (travelNodes_result_pair _ _ _ _ _ Htr)
      as [(pc & -> & Hpc)|(e & ->)]; simpl; [left|right; right]; eauto. }
  destruct (Http2Enabled c); [|apply Htravel].
  unfold bind at 1.
  destruct (slice_from (nodes c) (int_add (http2NodeIndex c) 1) t)
    as [[ns'| |] t1]; try discriminate.
  destruct (len ns' =? 0)%Z; [|apply Htravel].
  intros Hget.
  destruct (getHttp2Conn_exclusive _ _ _ _ Hget) as [(conn & ->)|(e & ->)];
    [left|right; left; eauto].
  exists conn. split; [done|].
  apply getHttp2Conn_success_inv in Hget as (_ & _ & _ & Hconn).
  intros ->. discriminate Hconn.
Qed.

End ResultPairs.

(** X7. Whatever the chain holds and whatever the world answers: a
    [Dial] that returns gives back either a connection with a nil error
    or a nil connection with an error, never both and never neither.  A
    [GetConn] that returns gives back a nil error exactly with a real
    connection; with an error it gives back a nil connection, or, when
    the error is the one [travelNodes] returned, the non-nil interface
    value that holds a nil [*ProxyConn]. *)
Theorem entry_points_result_pairs :
  forall (w : World) hook (c : ProxyChain) (addr : string) (t : trace),
    (forall r t', Dial w hook c addr t = (Done r, t') -> exclusive r) /\
    (forall r t', GetConn w hook c t = (Done r, t') -> GetConn_result r).
Proof.
  intros w hook c addr t. split; intros r t'.
  - unfold Dial. apply dialWithNodes_exclusive.
  - apply GetConn_result_pair.
Qed.

Lemma entry_points_result_pairs_witness :
  let w := world_connect_fails "b:1080" in
  let c := NewProxyChain [nodeA; nodeB] in
  let e := ExternalError "connect" in
  (fst (Dial w (DialTLS w 1 c) c "example.com" []) = Done (None, Some e) /\
   exclusive (None, Some e)) /\
  (fst (GetConn w (DialTLS w 1 c) c []) = Done (Some nil_ProxyConn, Some e) /\
   GetConn_result (Some nil_ProxyConn, Some e)).
Proof.
  intros w c e. split; (split; [reflexivity|]).
  - apply (proj1 (entry_points_result_pairs w (DialTLS w 1 c) c "example.com" [])
             (None, Some e) (snd (Dial w (DialTLS w 1 c) c "example.com" []))).
    reflexivity.
  - apply (proj2 (entry_points_result_pairs w (DialTLS w 1 c) c "example.com" [])
             (Some nil_ProxyConn, Some e) (snd (GetConn w (DialTLS w 1 c) c []))).
    reflexivity.
Defined.

Lemma Dial_target (w : World) hook (c : ProxyChain) (addr : string) (t : trace) :
  Dial w hook c addr t = dialWithNodes w hook c (target_addr addr) (nodes c) t.
Proof. unfold Dial, target_addr. by destruct (strings_Contains addr ":"). Qed.

(** X12. With the shortcut disabled and at least one node, [Dial] builds
    the whole chain and then issues one Connect to the target on its
    last layer.  If the chain cannot be built its error is returned as
    it is; if the final Connect fails the chain is closed, which closes
    the socket dialled first, the error is returned and no connection
    is; otherwise the chain itself is the connection returned. *)
Theorem Dial_raw_final_connect :
  forall (w : World) hook (c : ProxyChain) (addr : string) (node : ProxyNode)
         (rest : list ProxyNode) (t : trace),
    Http2Enabled c = false ->
    nodes c = node :: rest ->
    let target := target_addr addr in
    let cc := TCPConn (length t) (Addr node) in
    (forall e t1,
        travelNodes w hook c (nodes c) t = (Done (None, Some e), t1) ->
        Dial w hook c addr t = (Done (None, Some e), t1)) /\
    (forall pc t1,
        travelNodes w hook c (nodes c) t = (Done (Some pc, None), t1) ->
        match connect_result w t1 pc target with
        | None =>
            Dial w hook c addr t
            = (Done (Some pc, None), t1 ++ [EvConnect pc target None])
        | Some e =>
            Dial w hook c addr t
            = (Done (None, Some e),
               t1 ++ [EvConnect pc target (Some e); EvClose pc]) /\
            closed_in [EvConnect pc target (Some e); EvClose pc] cc = true
        end).
Proof.
  intros w hook c addr node rest t Hoff Hnodes target cc.
  assert (Hdial : Dial w hook c addr t
                  = connect_target w target (travelNodes w hook c (nodes c) t)).
  { rewrite Dial_target. apply dialWithNodes_disabled; [done|].
    by rewrite Hnodes. }
  split.
  - intros e t1 Hrun. by rewrite Hdial, Hrun.
  - intros pc t1 Hrun. rewrite Hdial, Hrun. cbn [connect_target].
    destruct (connect_result w t1 pc target) as [e|]; [|done].
    split; [done|].
    rewrite Hnodes in Hrun.
    destruct (travelNodes_raw w hook c node rest t Hoff)
      as (evs & r & Hrun' & _ & Hres).
    rewrite Hrun' in Hrun. injection Hrun as -> _.
    destruct Hres as [(pc' & [= <-] & _ & Hbase)|(e' & [=])].
    apply (closed_in_intro _ _ pc); [simpl; auto|].
    subst cc. rewrite <- Hbase. apply base_in_layers.
Qed.

Lemma Dial_raw_final_connect_witness :
  let w := world_connect_fails "example.com:80" in
  let c := NewProxyChain [nodeA; nodeB] in
  let hook := DialTLS w 1 c in
  let pc := ProxyConn (ProxyConn (TCPConn 0 "a:1080") nodeA) nodeB in
  let e := ExternalError "connect" in
  let t1 := snd (travelNodes w hook c (nodes c) []) in
  Dial w hook c "example.com" []
  = (Done (None, Some e), t1 ++ [EvConnect pc "example.com:80" (Some e); EvClose pc]) /\
  closed_in [EvConnect pc "example.com:80" (Some e); EvClose pc]
            (TCPConn 0 "a:1080") = true.
Proof.
  intros w c hook pc e t1.
  apply (proj2 (Dial_raw_final_connect w hook c "example.com" nodeA [nodeB] []
                  eq_refl eq_refl) pc t1 eq_refl).
Defined.

(** X11. With the shortcut enabled at a valid index [i], [Dial] reaches
    the target as follows: when node [i] is the last node, by
    [http2Connect] to the target address and nothing else; otherwise by
    [travelNodes] over the nodes after [i] followed by one Connect to the
    target on the chain built, closing that chain if the Connect fails.
    The nodes up to [i] are never travelled by [Dial] itself. *)
Theorem Dial_shortcut :
  forall (w : World) hook (c : ProxyChain) (addr : string),
    Http2Enabled c = true ->
    (0 <= http2NodeIndex c < len (nodes c))%Z ->
    (len (nodes c) <= MaxInt)%Z ->
    let target := target_addr addr in
    let i := http2NodeIndex c in
    (i = (len (nodes c) - 1)%Z ->
     forall t, Dial w hook c addr t = http2Connect w hook c target t) /\
    ((i < len (nodes c) - 1)%Z ->
     exists node rest,
       drop (Z.to_nat (i + 1)) (nodes c) = node :: rest /\
       forall t,
         Dial w hook c addr t
         = connect_target w target (travelNodes w hook c (node :: rest) t)).
Proof.
  intros w hook c addr Hon Hi Hmax target i. subst i. split.
  - intros Hlast t.
    rewrite Dial_target, (dialWithNodes_after_shortcut_index w hook c _ t Hon Hi Hmax).
    rewrite drop_ge; [done|]. unfold len in *. lia.
  - intros Hmore.
    destruct (drop (Z.to_nat (http2NodeIndex c + 1)) (nodes c))
      as [|node rest] eqn:Hdrop.
    { apply (f_equal length) in Hdrop. rewrite length_drop in Hdrop.
      simpl in Hdrop. unfold len in *. lia. }
    exists node, rest. split; [done|]. intros t.
    by rewrite Dial_target,
         (dialWithNodes_after_shortcut_index w hook c _ t Hon Hi Hmax), Hdrop.
Qed.

Lemma Dial_shortcut_witness :
  let hook := DialTLS world_ok 1 chainH in
  Dial world_ok hook chainH "example.com" []
  = http2Connect world_ok hook chainH "example.com:80" [].
Proof.
  intros hook.
  apply (proj1 (Dial_shortcut world_ok hook chainH "example.com" eq_refl
                  ltac:(vm_compute; split; [discriminate|reflexivity])
                  ltac:(vm_compute; discriminate)) eq_refl []).
Defined.

(** On an enabled chain both entry points start by opening the tunnel
    stream; when that ends in a panic, so do they, with the same trace. *)
Lemma shortcut_entry_points_panic (w : World) hook (c : ProxyChain)
    (addr : string) (t t1 : trace) (msg : string) :
  Http2Enabled c = true ->
  (0 <= http2NodeIndex c < len (nodes c))%Z ->
  (len (nodes c) <= MaxInt)%Z ->
  getHttp2Conn w hook c t = (Panic msg, t1) ->
  GetConn w hook c t = (Panic msg, t1) /\ Dial w hook c addr t = (Panic msg, t1).
Proof.
  intros Hon Hi Hmax Hget.
  assert (Hc : forall a, http2Connect w hook c a t = (Panic msg, t1)).
  { intros a. by rewrite http2Connect_run, Hget. }
  assert (Ht : forall node rest,
             travelNodes w hook c (node :: rest) t = (Panic msg, t1)).
  { intros node rest.
    pose proof (travelNodes_shortcut w hook c node rest t Hon) as Hs.
    by rewrite Hc in Hs. }
  split.
  - rewrite (GetConn_after_shortcut_index w hook c t Hon Hi Hmax).
    destruct (drop _ _); [exact Hget|by rewrite Ht].
  - rewrite Dial_target, (dialWithNodes_after_shortcut_index w hook c _ t Hon Hi Hmax).
    destruct (drop _ _); [apply Hc|by rewrite Ht].
Qed.

(** X13. With the shortcut enabled at a valid index, when the tunnel
    stream cannot be opened ([getHttp2Conn] returns an error: the client
    failed, or the status was not 200), [GetConn] and [Dial] both return
    that same error and do nothing after it.  [Dial] returns a nil
    connection with it.  [GetConn] returns a nil connection when the
    shortcut node is the last node; otherwise the error has passed
    through [travelNodes] and the connection returned is the non-nil
    interface value that holds a nil [*ProxyConn]. *)
Theorem shortcut_tunnel_failure_propagates :
  forall (w : World) hook (c : ProxyChain) (addr : string) (t t1 : trace)
         (e : error),
    Http2Enabled c = true ->
    (0 <= http2NodeIndex c < len (nodes c))%Z ->
    (len (nodes c) <= MaxInt)%Z ->
    getHttp2Conn w hook c t = (Done (None, Some e), t1) ->
    GetConn w hook c t
    = (Done (if (http2NodeIndex c =? len (nodes c) - 1)%Z
             then None else Some nil_ProxyConn,
             Some e), t1) /\
    Dial w hook c addr t = (Done (None, Some e), t1).
Proof.
  intros w hook c addr t t1 e Hon Hi Hmax Hget.
  assert (Hc : forall a, http2Connect w hook c a t = (Done (None, Some e), t1)).
  { intros a. by rewrite http2Connect_run, Hget. }
  assert (Ht : forall node rest,
             travelNodes w hook c (node :: rest) t = (Done (None, Some e), t1)).
  { intros node rest.
    pose proof (travelNodes_shortcut w hook c node rest t Hon) as Hs.
    by rewrite Hc in Hs. }
  split.
  - rewrite (GetConn_after_shortcut_index w hook c t Hon Hi Hmax).
    destruct (drop (Z.to_nat (http2NodeIndex c + 1)) (nodes c))
      as [|node rest] eqn:Hdrop.
    + apply (f_equal length) in Hdrop. rewrite length_drop in Hdrop.
      simpl in Hdrop.
      destruct (Z.eqb_spec (http2NodeIndex c) (len (nodes c) - 1)) as [_|Hne];
        [exact Hget|]. unfold len in *. lia.
    + destruct (Z.eqb_spec (http2NodeIndex c) (len (nodes c) - 1)) as [Heq|_].
      { rewrite drop_ge in Hdrop; [discriminate Hdrop|]. unfold len in *. lia. }
      by rewrite Ht.
  - rewrite Dial_target, (dialWithNodes_after_shortcut_index w hook c _ t Hon Hi Hmax).
    destruct (drop _ _); [apply Hc|by rewrite Ht].
Qed.

Lemma shortcut_tunnel_failure_propagates_witness :
  let w := world_status 503 "503 Service Unavailable" in
  let e := errors_New "503 Service Unavailable" in
  (let hook := DialTLS w 1 chainHC in
   let t1 := snd (getHttp2Conn w hook chainHC []) in
   GetConn w hook chainHC [] = (Done (Some nil_ProxyConn, Some e), t1) /\
   Dial w hook chainHC "example.com" [] = (Done (None, Some e), t1)) /\
  (let hook := DialTLS w 1 chainH in
   let t1 := snd (getHttp2Conn w hook chainH []) in
   GetConn w hook chainH [] = (Done (None, Some e), t1) /\
   Dial w hook chainH "example.com" [] = (Done (None, Some e), t1)).
Proof.
  intros w e. split.
  - intros hook t1.
    apply (shortcut_tunnel_failure_propagates w hook chainHC "example.com" [] t1 e
             eq_refl
             ltac:(vm_compute; split; [discriminate|reflexivity])
             ltac:(vm_compute; discriminate)
             eq_refl).
  - intros hook t1.
    apply (shortcut_tunnel_failure_propagates w hook chainH "example.com" [] t1 e
             eq_refl
             ltac:(vm_compute; split; [discriminate|reflexivity])
             ltac:(vm_compute; discriminate)
             eq_refl).
Defined.

(* ===================================================================== *)
(** ** Further properties of activation and of the dial hook *)
(* ===================================================================== *)

Lemma first_shortcut_split (l : list ProxyNode) :
  Forall (fun n => ~ requests_shortcut n) l \/
  exists pre node post,
    l = pre ++ node :: post /\
    Forall (fun n => ~ requests_shortcut n) pre /\ requests_shortcut node.
Proof.
  induction l as [|n l IH]; [left; constructor|].
  destruct (decide (Transport n = "http2")) as [Hn|Hn].
  - right. exists [], n, l. repeat split; [constructor|exact Hn].
  - destruct IH as [Hall|(pre & node & post & -> & Hpre & Hnode)].
    + left. by constructor.
    + right. exists (n :: pre), node, post. repeat split; [by constructor|done].
Qed.

Lemma TryEnableHttp2_not_requested (c : ProxyChain) :
  Forall (fun n => ~ requests_shortcut n) (nodes c) ->
  TryEnableHttp2 c
  = if (len (nodes c) =? 0)%Z then c
    else {| nodes := nodes c;
            lastNode := nodes c !! Z.to_nat (len (nodes c) - 1);
            http2NodeIndex := http2NodeIndex c;
            http2Enabled := http2Enabled c;
            http2Client := http2Client c |}.
Proof.
  intros Hall. unfold TryEnableHttp2.
  destruct (len (nodes c) =? 0)%Z; [done|].
  cbv zeta. cbn [nodes]. by rewrite TryEnableHttp2_range_miss.
Qed.

(** X8. [TryEnableHttp2] is idempotent on the chain record: a second
    call on the same nodes finds the same first shortcut node and leaves
    [lastNode], the index, the flag, and the client's TLS configuration
    and captured prefix as the first call set them. *)
Theorem TryEnableHttp2_idempotent :
  forall c : ProxyChain,
    TryEnableHttp2 (TryEnableHttp2 c) = TryEnableHttp2 c.
Proof.
  intros c.
  destruct (first_shortcut_split (nodes c))
    as [Hall|(pre & node & post & Hnodes & Hpre & Hnode)].
  - rewrite (TryEnableHttp2_not_requested c Hall).
    destruct (len (nodes c) =? 0)%Z eqn:Hlen.
    + by rewrite (TryEnableHttp2_not_requested c Hall), Hlen.
    + rewrite TryEnableHttp2_not_requested by exact Hall.
      cbn [nodes http2NodeIndex http2Enabled http2Client]. by rewrite Hlen.
  - rewrite (TryEnableHttp2_activated c pre node post Hnodes Hpre Hnode).
    set (c1 := Build_ProxyChain _ _ _ _ _).
    by rewrite (TryEnableHttp2_activated c1 pre node post
                  (Hnodes : nodes c1 = _) Hpre Hnode).
Qed.

(** X9. Activating a chain that was never activated before leaves it in
    one of two consistent states.  The shortcut is enabled exactly when
    some node requests it; then the index lies within the node list and
    names a node that requests the shortcut, and the client exists with
    that node's TLS parameters and with the nodes before the index, none
    of which requests the shortcut, as its captured prefix.  Otherwise
    the index is still -1 and there is no client.  In both states
    [lastNode] is the last node of a non-empty registry. *)
Theorem TryEnableHttp2_fresh_chain :
  forall (parse : string -> ProxyNode + error) (c0 : ProxyChain),
    unactivated parse c0 ->
    let c := TryEnableHttp2 c0 in
    (http2Enabled c = true <-> Exists requests_shortcut (nodes c0)) /\
    (http2Enabled c = true ->
     exists node client,
       (0 <= http2NodeIndex c < len (nodes c))%Z /\
       nodes c !! Z.to_nat (http2NodeIndex c) = Some node /\
       requests_shortcut node /\
       http2Client c = Some client /\
       TLSClientConfig client
       = {| InsecureSkipVerify := insecureSkipVerify node;
            ServerName := serverName node |} /\
       DialTLS_nodes client = take (Z.to_nat (http2NodeIndex c)) (nodes c) /\
       Forall (fun n => ~ requests_shortcut n) (DialTLS_nodes client)) /\
    (http2Enabled c = false ->
     http2NodeIndex c = (-1)%Z /\ http2Client c = None) /\
    (nodes c0 <> [] -> lastNode c = last (nodes c0)).
Proof.
  intros parse c0 Hun c.
  destruct (unactivated_fields parse c0 Hun) as (Hoff & Hidx & Hcl).
  assert (Hlast : forall l : list ProxyNode,
             l !! Z.to_nat (len l - 1) = last l).
  { intros l. rewrite last_lookup. f_equal. unfold len. lia. }
  destruct (first_shortcut_split (nodes c0))
    as [Hall|(pre & node & post & Hnodes & Hpre & Hnode)].
  - assert (Hc : http2Enabled c = false /\ http2NodeIndex c = (-1)%Z /\
                 http2Client c = None /\
                 (nodes c0 <> [] -> lastNode c = last (nodes c0))).
    { subst c. rewrite (TryEnableHttp2_not_requested c0 Hall).
      destruct (Z.eqb_spec (len (nodes c0)) 0) as [Hz|Hnz].
      - repeat split; try done; intros Hne; destruct (nodes c0); [done|];
          unfold len in Hz; simpl in Hz; lia.
      - cbn [http2Enabled http2NodeIndex http2Client lastNode].
        repeat split; try done; intros _; apply Hlast. }
    destruct Hc as (Hoff' & Hidx' & Hcl' & Hlast').
    split; [|split; [|split]].
    + rewrite Hoff'. split; [discriminate|]. intros Hex.
      apply Forall_Exists_neg in Hall. by destruct Hall.
    + rewrite Hoff'. discriminate.
    + done.
    + exact Hlast'.
  - subst c. rewrite (TryEnableHttp2_activated c0 pre node post Hnodes Hpre Hnode).
    cbn [http2Enabled http2NodeIndex http2Client lastNode nodes].
    split; [|split; [|split]].
    + split; [intros _|done]. rewrite Hnodes.
      apply Exists_app. right. by constructor.
    + intros _. eexists node, _. unfold len. rewrite Nat2Z.id.
      split; [rewrite Hnodes, length_app; simpl; lia|].
      split; [by rewrite Hnodes, list_lookup_middle|].
      split; [exact Hnode|]. split; [reflexivity|]. cbn [TLSClientConfig DialTLS_nodes].
      split; [reflexivity|]. split; [|exact Hpre].
      by rewrite Hnodes, take_app_length.
    + discriminate.
    + intros _. apply Hlast.
Qed.

Lemma TryEnableHttp2_fresh_chain_witness :
  let c0 := AddProxyNode (NewProxyChain [nodeA]) [nodeH; nodeC] in
  let c := TryEnableHttp2 c0 in
  (http2Enabled c = true <-> Exists requests_shortcut (nodes c0)) /\
  lastNode c = Some nodeC.
Proof.
  intros c0 c.
  assert (Hun : unactivated sample_parser c0)
    by apply unactivated_add, unactivated_new.
  destruct (TryEnableHttp2_fresh_chain sample_parser c0 Hun)
    as (Hiff & _ & _ & Hlast).
  split; [exact Hiff|]. apply Hlast. discriminate.
Defined.

(** X10. When the first node of a fresh chain requests the shortcut,
    activation gives the client an empty prefix, and the client's dial
    hook then works: called with an address, it makes one direct TCP
    dial to that address and returns the socket wrapped by [tls.Client]
    with the configuration it was given, or the dialler's error. *)
Theorem DialTLS_shortcut_first :
  forall (w : World) (fuel : nat) (node : ProxyNode) (post : list ProxyNode)
         (network addr : string) (cfg : tls_Config) (t : trace),
    requests_shortcut node ->
    let c := TryEnableHttp2 (NewProxyChain (node :: post)) in
    exists client,
      http2Client c = Some client /\ DialTLS_nodes client = [] /\
      DialTLS w (S fuel) c client network addr cfg t
      = match dial_result w t addr with
        | None =>
            (Done (Some (tlsConn (TCPConn (length t) addr) cfg), None),
             t ++ [EvDial addr (inl (TCPConn (length t) addr))])
        | Some e => (Done (None, Some e), t ++ [EvDial addr (inr e)])
        end.
Proof.
  intros w fuel node post network addr cfg t Hnode c. subst c.
  rewrite (TryEnableHttp2_activated (NewProxyChain (node :: post))
             [] node post eq_refl (Forall_nil_2 _) Hnode).
  cbn [http2Client]. eexists. split; [reflexivity|]. split; [reflexivity|].
  cbn [DialTLS DialTLS_nodes]. unfold bind, dialWithNodes, net_DialTimeout.
  change (len [] =? 0)%Z with true. cbv beta iota.
  by destruct (dial_result w t addr).
Qed.

Lemma DialTLS_shortcut_first_witness :
  exists client,
    http2Client chainHC = Some client /\ DialTLS_nodes client = [] /\
    DialTLS world_ok 1 chainHC client "tcp" "h:443"
      {| InsecureSkipVerify := true; ServerName := "h:443" |} []
    = (Done (Some (tlsConn (TCPConn 0 "h:443")
                     {| InsecureSkipVerify := true; ServerName := "h:443" |}),
             None),
       [EvDial "h:443" (inl (TCPConn 0 "h:443"))]).
Proof.
  apply (DialTLS_shortcut_first world_ok 0 nodeH [nodeC] "tcp" "h:443"
           {| InsecureSkipVerify := true; ServerName := "h:443" |} [] eq_refl).
Defined.

(** The dial hook on a chain whose shortcut index equals the length of
    the client's non-empty prefix. *)
Lemma DialTLS_slice_panic (w : World) (fuel : nat) (c : ProxyChain)
    (client : Http2Client) (network addr : string) (cfg : tls_Config) (t : trace) :
  Http2Enabled c = true ->
  http2NodeIndex c = len (DialTLS_nodes client) ->
  (1 <= len (DialTLS_nodes client) < MaxInt)%Z ->
  DialTLS w (S fuel) c client network addr cfg t
  = (Panic "slice bounds out of range", t).
Proof.
  intros Hon Hidx Hlen. cbn [DialTLS]. unfold bind at 1. unfold dialWithNodes.
  destruct (Z.eqb_spec (len (DialTLS_nodes client)) 0) as [Hz|_]; [lia|].
  rewrite Hon, Hidx, int_add_1 by lia. unfold bind at 1. unfold slice_from.
  destruct (Z.leb_spec (len (DialTLS_nodes client) + 1)
                       (len (DialTLS_nodes client))); [lia|].
  by rewrite andb_false_r.
Qed.

(** X14. On a fresh chain activated with at least one node before the
    first shortcut node, every [GetConn] and every [Dial] for which the
    HTTP/2 transport has to open its connection (as it must on first
    use) ends in the runtime panic "slice bounds out of range", right
    after the pipe is created and before any network operation. *)
Theorem shortcut_behind_prefix_entry_points_panic :
  forall (w : World) (fuel : nat) (pre : list ProxyNode) (node : ProxyNode)
         (post : list ProxyNode) (addr dial_addr : string) (t : trace),
    pre <> [] ->
    Forall (fun n => ~ requests_shortcut n) pre ->
    requests_shortcut node ->
    (len (pre ++ node :: post) <= MaxInt)%Z ->
    let c := TryEnableHttp2 (NewProxyChain (pre ++ node :: post)) in
    let hook := DialTLS w (S fuel) c in
    let p := length t in
    transport_dial w (t ++ [EvPipe p]) (switch_request node p) = Some dial_addr ->
    GetConn w hook c t = (Panic "slice bounds out of range", t ++ [EvPipe p]) /\
    Dial w hook c addr t = (Panic "slice bounds out of range", t ++ [EvPipe p]).
Proof.
  intros w fuel pre node post addr dial_addr t Hne Hpre Hnode Hmax c hook p Hdial.
  assert (Hlen : (1 <= len pre < MaxInt)%Z).
  { unfold len, MaxInt in *. rewrite length_app in Hmax. simpl in Hmax.
    destruct pre; [done|]. simpl in *. lia. }
  assert (Hc : c = {| nodes := pre ++ node :: post;
                      lastNode := (pre ++ node :: post)
                                    !! Z.to_nat (len (pre ++ node :: post) - 1);
                      http2NodeIndex := len pre;
                      http2Enabled := true;
                      http2Client :=
                        Some {| TLSClientConfig :=
                                  {| InsecureSkipVerify := insecureSkipVerify node;
                                     ServerName := serverName node |};
                                DialTLS_nodes := pre |} |}).
  { subst c. by rewrite (TryEnableHttp2_activated
                           (NewProxyChain (pre ++ node :: post))
                           pre node post eq_refl Hpre Hnode). }
  assert (Hon : Http2Enabled c = true) by (by rewrite Hc).
  assert (Hidx : http2NodeIndex c = len pre) by (by rewrite Hc).
  assert (Hnodes : nodes c = pre ++ node :: post) by (by rewrite Hc).
  assert (Hi : (0 <= http2NodeIndex c < len (nodes c))%Z).
  { rewrite Hidx, Hnodes. unfold len in *. rewrite length_app. simpl. lia. }
  apply shortcut_entry_points_panic; [exact Hon|exact Hi|by rewrite Hnodes|].
  rewrite (getHttp2Conn_run w hook c node t Hon (proj1 Hi)).
  2:{ rewrite Hidx, Hnodes. unfold len. rewrite Nat2Z.id.
      by rewrite list_lookup_middle. }
  cbv zeta. fold p. unfold Do.
  replace (http2Client c) with
    (Some {| TLSClientConfig :=
               {| InsecureSkipVerify := insecureSkipVerify node;
                  ServerName := serverName node |};
             DialTLS_nodes := pre |}) by (by rewrite Hc).
  rewrite Hdial. unfold bind at 1. subst hook.
  by rewrite DialTLS_slice_panic.
Qed.

Lemma shortcut_behind_prefix_entry_points_panic_witness :
  let hook := DialTLS world_ok 1 chainAHC in
  GetConn world_ok hook chainAHC [] = (Panic "slice bounds out of range", [EvPipe 0]) /\
  Dial world_ok hook chainAHC "example.com" []
  = (Panic "slice bounds out of range", [EvPipe 0]).
Proof.
  intros hook.
  apply (shortcut_behind_prefix_entry_points_panic world_ok 0 [nodeA] nodeH [nodeC]
           "example.com" "h:443" []).
  - discriminate.
  - repeat constructor. discriminate.
  - reflexivity.
  - vm_compute. discriminate.
  - reflexivity.
Defined.

Lemma DialTLS_empty_prefix (w : World) (fuel : nat) (c : ProxyChain)
    (client : Http2Client) (network addr : string) (cfg : tls_Config) (t : trace) :
  DialTLS_nodes client = [] ->
  DialTLS w (S fuel) c client network addr cfg t
  = match dial_result w t addr with
    | None =>
        (Done (Some (tlsConn (TCPConn (length t) addr) cfg), None),
         t ++ [EvDial addr (inl (TCPConn (length t) addr))])
    | Some e => (Done (None, Some e), t ++ [EvDial addr (inr e)])
    end.
Proof.
  intros Hnil. cbn [DialTLS]. rewrite Hnil.
  unfold bind, dialWithNodes, net_DialTimeout.
  change (len [] =? 0)%Z with true. cbv beta iota.
  by destruct (dial_result w t addr).
Qed.

(** X15. Opening the tunnel on a fresh chain whose first node requests
    the shortcut.  [getHttp2Conn] creates the pipe; if the transport
    needs a connection, the dial hook makes one direct TCP dial to the
    address the transport asks for, and a failed dial is returned as the
    error without any request being sent; then one request is exchanged
    and, on status 200, the stream made of the response body and the
    pipe is returned.  Nothing else happens, and one level of the hook
    is all that is ever entered. *)
Theorem getHttp2Conn_shortcut_first :
  forall (w : World) (fuel : nat) (node : ProxyNode) (post : list ProxyNode)
         (t : trace),
    requests_shortcut node ->
    let c := TryEnableHttp2 (NewProxyChain (node :: post)) in
    let hook := DialTLS w (S fuel) c in
    let p := length t in
    let req := switch_request node p in
    let t0 := t ++ [EvPipe p] in
    (transport_dial w t0 req = None ->
     forall resp,
       roundtrip_result w t0 req = inl resp ->
       Response.StatusCode resp = 200%Z ->
       getHttp2Conn w hook c t
       = (Done (Some (http2Conn (Response.Body resp) p), None),
          t0 ++ [EvRoundTrip req (inl resp)]))
    /\
    (forall a,
        transport_dial w t0 req = Some a ->
        (forall e,
            dial_result w t0 a = Some e ->
            getHttp2Conn w hook c t
            = (Done (None, Some e), t0 ++ [EvDial a (inr e)])) /\
        (dial_result w t0 a = None ->
         let sock := TCPConn (length t0) a in
         forall resp,
           roundtrip_result w (t0 ++ [EvDial a (inl sock)]) req = inl resp ->
           Response.StatusCode resp = 200%Z ->
           getHttp2Conn w hook c t
           = (Done (Some (http2Conn (Response.Body resp) p), None),
              t0 ++ [EvDial a (inl sock); EvRoundTrip req (inl resp)]))).
Proof.
  intros w fuel node post t Hnode c hook p req t0.
  assert (Hc : c = {| nodes := node :: post;
                      lastNode := (node :: post)
                                    !! Z.to_nat (len (node :: post) - 1);
                      http2NodeIndex := 0;
                      http2Enabled := true;
                      http2Client :=
                        Some {| TLSClientConfig :=
                                  {| InsecureSkipVerify := insecureSkipVerify node;
                                     ServerName := serverName node |};
                                DialTLS_nodes := [] |} |}).
  { subst c. by rewrite (TryEnableHttp2_activated
                           (NewProxyChain (node :: post))
                           [] node post eq_refl (Forall_nil_2 _) Hnode). }
  assert (Hrun : getHttp2Conn w hook c t
                 = match Do w hook (http2Client c) req t0 with
                   | (Done (_, Some err), t1) => (Done (None, Some err), t1)
                   | (Done (None, None), t1) =>
                       (Panic "invalid memory address or nil pointer dereference", t1)
                   | (Done (Some resp, None), t1) =>
                       if (Response.StatusCode resp =? 200)%Z
                       then (Done (Some (http2Conn (Response.Body resp) p), None), t1)
                       else (Done (None, Some (errors_New (Response.Status resp))),
                             t1 ++ [EvBodyClose (Response.Body resp)])
                   | (Panic msg, t1) => (Panic msg, t1)
                   | (OutOfFuel, t1) => (OutOfFuel, t1)
                   end).
  { apply (getHttp2Conn_run w hook c node t); by rewrite Hc. }
  rewrite Hrun. clear Hrun. unfold Do.
  replace (http2Client c) with
    (Some {| TLSClientConfig :=
               {| InsecureSkipVerify := insecureSkipVerify node;
                  ServerName := serverName node |};
             DialTLS_nodes := [] |}) by (by rewrite Hc).
  split.
  - intros Hpool resp Hresp Hok. rewrite Hpool. unfold RoundTrip.
    rewrite Hresp. apply Z.eqb_eq in Hok. by rewrite Hok.
  - intros a Hdial. rewrite Hdial. subst hook. split.
    + intros e He. unfold bind at 1.
      rewrite DialTLS_empty_prefix by reflexivity. by rewrite He.
    + cbv zeta. intros Hsock resp Hresp Hok. unfold bind at 1.
      rewrite DialTLS_empty_prefix by reflexivity. rewrite Hsock.
      unfold RoundTrip. rewrite Hresp. apply Z.eqb_eq in Hok. rewrite Hok.
      by norm_trace.
Qed.

Lemma getHttp2Conn_shortcut_first_witness :
  let hook := DialTLS world_ok 1 chainHC in
  let req := switch_request nodeH 0 in
  let sock := TCPConn 1 "h:443" in
  let resp := {| Response.Status := "200 OK"; Response.StatusCode := 200;
                 Response.Body := 2 |} in
  getHttp2Conn world_ok hook chainHC []
  = (Done (Some (http2Conn 2 0), None),
     [EvPipe 0] ++ [EvDial "h:443" (inl sock); EvRoundTrip req (inl resp)]).
Proof.
  intros hook req sock resp.
  apply (proj2 (proj2 (getHttp2Conn_shortcut_first world_ok 0 nodeH [nodeC] []
                         eq_refl) "h:443" eq_refl) eq_refl resp eq_refl eq_refl).
Defined.

(* ===================================================================== *)
(** ** Chains that were never activated *)
(* ===================================================================== *)

(** C10. A chain built by [NewProxyChain], [AddProxyNode] and
    [AddProxyNodeString] on which [TryEnableHttp2] was never called, or
    only while the registry was empty, keeps the initial shortcut state
    (disabled, index -1, no client).  On such a chain every [Dial] and
    [GetConn] returns, and its trace holds only TCP dials and operations
    on the streams so opened (no pipe, no tunnel request); the nodes'
    transport kinds play no part.  With no nodes, [GetConn] fails with
    [ErrEmptyChain] and [Dial] is one TCP dial of the target.  With
    nodes [node :: rest], both start with a TCP dial to [node]'s
    address; a failed dial, or a failed handshake of [node] after
    keep-alive, ends the call with that error; otherwise the hop loop
    runs over all of [rest] as [hop_layering] describes it, and [Dial]
    finishes with one Connect to the target.  When the world lets every
    operation succeed, [GetConn] returns the nesting of one layer per
    configured node on the dialled socket after exactly the dial,
    keep-alive, handshake and [layered_steps], and [Dial] returns the
    same after one more Connect to the target.  On an error of
    [travelNodes], [GetConn] returns the interface value holding a nil
    [*ProxyConn] and [Dial] returns nil. *)
Theorem unactivated_chain_uses_raw_path :
  forall (parse : string -> ProxyNode + error) (c : ProxyChain),
    unactivated parse c ->
    (http2Enabled c = false /\ http2NodeIndex c = (-1)%Z /\ http2Client c = None) /\
    forall (w : World) hook (addr : string) (t : trace),
      (exists evs r,
          Dial w hook c addr t = (Done r, t ++ evs) /\
          forallb raw_event evs = true /\
          forall conn, fst r = Some conn ->
                       hops conn = nodes c /\ is_TCPConn (base conn) = true) /\
      (exists evs r,
          GetConn w hook c t = (Done r, t ++ evs) /\
          forallb raw_event evs = true /\
          forall conn, r = (Some conn, None) ->
                       hops conn = nodes c /\ is_TCPConn (base conn) = true) /\
      (nodes c = [] ->
       let target := target_addr addr in
       GetConn w hook c t = (Done (None, Some ErrEmptyChain), t) /\
       Dial w hook c addr t
       = match dial_result w t target with
         | None =>
             (Done (Some (TCPConn (length t) target), None),
              t ++ [EvDial target (inl (TCPConn (length t) target))])
         | Some e => (Done (None, Some e), t ++ [EvDial target (inr e)])
         end) /\
      (forall node rest,
          nodes c = node :: rest ->
          let target := target_addr addr in
          let cc := TCPConn (length t) (Addr node) in
          let pc0 := ProxyConn cc node in
          let opened := [EvDial (Addr node) (inl cc); EvKeepAlive cc] in
          match dial_result w t (Addr node) with
          | Some e =>
              GetConn w hook c t
              = (Done (Some nil_ProxyConn, Some e),
                 t ++ [EvDial (Addr node) (inr e)]) /\
              Dial w hook c addr t
              = (Done (None, Some e), t ++ [EvDial (Addr node) (inr e)])
          | None =>
              match handshake_result w (t ++ opened) pc0 with
              | Some e =>
                  GetConn w hook c t
                  = (Done (Some nil_ProxyConn, Some e),
                     t ++ opened ++ [EvHandshake pc0 (Some e)]) /\
                  Dial w hook c addr t
                  = (Done (None, Some e),
                     t ++ opened ++ [EvHandshake pc0 (Some e)])
              | None =>
                  let t3 := t ++ opened ++ [EvHandshake pc0 None] in
                  let built := fold_left ProxyConn rest pc0 in
                  (exists r t',
                      hop_layering w pc0 rest t3 r t' /\
                      GetConn w hook c t
                      = (Done (net_Conn_of_ProxyConn (fst r), snd r), t') /\
                      Dial w hook c addr t
                      = connect_target w target (Done r, t')) /\
                  ((forall t conn a, connect_result w t conn a = None) ->
                   (forall t pc, handshake_result w t pc = None) ->
                   GetConn w hook c t
                   = (Done (Some built, None), t3 ++ layered_steps pc0 rest) /\
                   Dial w hook c addr t
                   = (Done (Some built, None),
                      t3 ++ layered_steps pc0 rest
                         ++ [EvConnect built target None]))
              end
          end).
Proof.
  intros parse c Hun.
  pose proof (unactivated_fields parse c Hun) as Hfields.
  split; [exact Hfields|]. destruct Hfields as (Hoff & _ & _).
  intros w hook addr t. split; [|split; [|split]].
  - unfold Dial. by apply dialWithNodes_raw.
  - by apply GetConn_raw.
  - intros Hnil target. split.
    + unfold GetConn. by rewrite Hnil.
    + subst target. unfold Dial, dialWithNodes, target_addr, net_DialTimeout.
      rewrite Hnil. by destruct (strings_Contains addr ":").
  - intros node rest Hnodes target cc pc0 opened.
    assert (HG : GetConn w hook c t
                 = returned_as_net_Conn (travelNodes w hook c (node :: rest) t)).
    { rewrite GetConn_disabled by (by rewrite ?Hnodes). by rewrite Hnodes. }
    assert (HD : Dial w hook c addr t
                 = connect_target w target (travelNodes w hook c (node :: rest) t)).
    { rewrite Dial_target, Hnodes. by apply dialWithNodes_disabled. }
    pose proof (travelNodes_raw_run w hook c node rest t Hoff) as Hrun.
    cbv zeta in Hrun. fold cc pc0 opened in Hrun.
    destruct (dial_result w t (Addr node)) as [e|].
    { by rewrite HG, HD, Hrun. }
    destruct (handshake_result w (t ++ opened) pc0) as [e|].
    { by rewrite HG, HD, Hrun. }
    destruct Hrun as (r & t' & Hlay & Htr). rewrite HG, HD, Htr. cbv zeta.
    split.
    + exists r, t'. done.
    + intros Hcs Hhs.
      destruct (hop_layering_all_ok w _ _ _ _ _ Hcs Hhs Hlay) as (-> & ->).
      cbn [returned_as_net_Conn connect_target net_Conn_of_ProxyConn fst snd].
      rewrite Hcs. subst opened. by norm_trace.
Qed.

Lemma unactivated_chain_uses_raw_path_witness :
  let c := snd (AddProxyNodeString sample_parser
                  (AddProxyNode (TryEnableHttp2 (NewProxyChain [])) [nodeA; nodeH])
                  ["c:1080"]) in
  let hook := DialTLS world_ok 1 c in
  let cc := TCPConn 0 "a:1080" in
  let pcA := ProxyConn cc nodeA in
  let pcH := ProxyConn pcA nodeH in
  let pcC := ProxyConn pcH nodeC in
  let built := [EvDial "a:1080" (inl cc); EvKeepAlive cc; EvHandshake pcA None;
                EvConnect pcA "h:443" None; EvHandshake pcH None;
                EvConnect pcH "c:1080" None; EvHandshake pcC None] in
  nodes c = [nodeA; nodeH; nodeC] /\
  http2Enabled c = false /\
  GetConn world_ok hook c [] = (Done (Some pcC, None), built) /\
  Dial world_ok hook c "example.com" []
  = (Done (Some pcC, None), built ++ [EvConnect pcC "example.com:80" None]).
Proof.
  intros c hook cc pcA pcH pcC built. split; [reflexivity|].
  assert (Hun : unactivated sample_parser c).
  { apply unactivated_add_string, unactivated_add, unactivated_try_empty;
      [apply unactivated_new|reflexivity]. }
  destruct (unactivated_chain_uses_raw_path sample_parser c Hun)
    as ((Hoff & _ & _) & Hrun).
  split; [exact Hoff|].
  destruct (Hrun world_ok hook "example.com" []) as (_ & _ & _ & Hnodes).
  destruct (Hnodes nodeA [nodeH; nodeC] eq_refl) as (_ & Hok).
  destruct (Hok ltac:(reflexivity) ltac:(reflexivity)) as (HG & HD).
  split; [exact HG|exact HD].
Defined.
